(** * grpc-throughputlb: the address pool and its least-loaded selection

    A shallow embedding of [throughput_load_balancer.go] and the properties
    of its slots ([address]) and of the balancer built on them.

    Conventions of the model.
    - Go's [int] is taken as the 64-bit two's complement integer of the
      usual targets (amd64, arm64): a [Z] together with [wrap], which is
      written wherever the source does arithmetic.
    - [*address] values are locations in a [store]; a method with a pointer
      receiver reads and writes the store at its receiver.  [nil] is [None].
    - The model runs one goroutine.  The mutexes of the source are taken and
      dropped inside each method and nothing else runs in between, so they
      do not appear; a goroutine that cannot go on is reported as such
      ([Parked] on a channel send, [Sleeping] in the retry loop).
    - Memory is unbounded: allocation never fails. *)

From Stdlib Require Import ZArith Lia.
From stdpp Require Import base decidable option list strings.

#[local] Open Scope Z_scope.

(** ** Machine integers *)

Definition min_int : Z := - 2 ^ 63.
Definition max_int : Z := 2 ^ 63 - 1.

(** Two's complement reduction of a mathematical result to an [int]. *)
Definition wrap (z : Z) : Z := (z + 2 ^ 63) `mod` 2 ^ 64 - 2 ^ 63.

(** The values an [int] variable can hold. *)
Definition is_int (z : Z) : Prop := min_int <= z <= max_int.

(** ** Codes, states and addresses *)

(** The [error] values that flow through this package: its two own values
    and whatever a health reporter passes to the handle of [Up]. *)
Inductive error : Type :=
  | errUnavailable
  | errMaxRequestsExceeded
  | errOther (msg : string).

(** [addrState], with [stateDown = iota = 0] and [stateUp = 1]. *)
Inductive addrState : Type :=
  | stateDown
  | stateUp.

#[global] Instance addrState_eq_dec : EqDecision addrState.
Proof. solve_decision. Defined.

(** Dynamic values of the [interface{}] field [Metadata].  The balancer
    stores an [int] there; a caller may pass nothing or some other
    comparable value. *)
Inductive iface : Type :=
  | INil
  | IInt (n : Z)
  | IString (s : string).

#[global] Instance iface_eq_dec : EqDecision iface.
Proof. solve_decision. Defined.

(** [grpc.Address]. *)
Record grpc_Address : Type := mkAddress {
  Addr : string;
  Metadata : iface
}.

#[global] Instance grpc_Address_eq_dec : EqDecision grpc_Address.
Proof. solve_decision. Defined.

(** The zero value [grpc.Address{}]. *)
Definition zero_Address : grpc_Address := mkAddress "" INil.

(** The struct [address]: the embedded [grpc.Address] and the fields the
    mutex guards. *)
Record address : Type := mkSlot {
  Address : grpc_Address;
  state : addrState;
  activeRequests : Z;
  maxRequests : Z
}.

Definition set_activeRequests (n : Z) (a : address) : address :=
  mkSlot (Address a) (state a) n (maxRequests a).

Definition set_state (s : addrState) (a : address) : address :=
  mkSlot (Address a) s (activeRequests a) (maxRequests a).

(** A slot whose counters are [int]s. *)
Definition slot_ok (a : address) : Prop :=
  is_int (activeRequests a) /\ is_int (maxRequests a).

(** ** Methods of a slot, on its value *)

(** [claim]: refuse at the ceiling, else count one more. *)
Definition claim (a : address) : address * option error :=
  if decide (activeRequests a >= maxRequests a)
  then (a, Some errMaxRequestsExceeded)
  else (set_activeRequests (wrap (activeRequests a + 1)) a, None).

(** [release]: count one less, whatever the count is. *)
Definition release (a : address) : address :=
  set_activeRequests (wrap (activeRequests a - 1)) a.

Definition goUp (a : address) : address := set_state stateUp a.

(** [goDown] drops its argument. *)
Definition goDown (cause : option error) (a : address) : address :=
  set_state stateDown a.

Definition isUp (a : address) : bool := bool_decide (state a = stateUp).

Definition isDown (a : address) : bool := bool_decide (state a = stateDown).

Definition capacity (a : address) : Z := activeRequests a.

(** ** A caller's use of one slot over time *)

Inductive slot_op : Type :=
  | OpClaim
  | OpRelease.

(** Runs the operations in order.  [held] counts the claims that succeeded
    and were not released yet; the result gives the slot and that count. *)
Fixpoint run_ops (ops : list slot_op) (a : address) (held : nat) : address * nat :=
  match ops with
  | [] => (a, held)
  | OpClaim :: ops' =>
      match claim a with
      | (a', None) => run_ops ops' a' (S held)
      | (a', Some _) => run_ops ops' a' held
      end
  | OpRelease :: ops' => run_ops ops' (release a) (Nat.pred held)
  end.

(** The caller's discipline: every [release] gives back a claim that
    succeeded before and was not given back yet. *)
Fixpoint disciplined (ops : list slot_op) (a : address) (held : nat) : bool :=
  match ops with
  | [] => true
  | OpClaim :: ops' =>
      match claim a with
      | (a', None) => disciplined ops' a' (S held)
      | (a', Some _) => disciplined ops' a' held
      end
  | OpRelease :: ops' =>
      match held with
      | O => false
      | S held' => disciplined ops' (release a) held'
      end
  end.

(** ** The store of slots *)

(** What a call can do besides returning. *)
Inductive result (A : Type) : Type :=
  | Ok (a : A)
  | Panic.
Arguments Ok {A} a.
Arguments Panic {A}.

#[global] Instance result_ret : MRet result := fun A a => Ok a.
#[global] Instance result_bind : MBind result := fun A B f m =>
  match m with
  | Ok a => f a
  | Panic => Panic
  end.

Abbreviation loc := nat (only parsing).

(** A [*address]: [nil] or the location of a slot. *)
Abbreviation ptr := (option nat) (only parsing).

(** The slots allocated so far, each at its location. *)
Abbreviation store := (list address) (only parsing).

(** [&address{...}]: a fresh location holding the value. *)
Definition alloc (a : address) (h : store) : store * loc :=
  (h ++ [a], length h).

(** Reading through a pointer; through [nil] it panics.  (A location
    outside the store is not a pointer any run creates; reading it is
    modelled as a panic too.) *)
Definition deref (h : store) (p : ptr) : result address :=
  match p with
  | None => Panic
  | Some l =>
      match h !! l with
      | Some a => Ok a
      | None => Panic
      end
  end.

(** Methods called through a pointer. *)
Definition claim_at (p : ptr) (h : store) : result (store * option error) :=
  a ← deref h p;
  match p with
  | Some l => Ok (<[l := fst (claim a)]> h, snd (claim a))
  | None => Panic
  end.

Definition update_at (f : address -> address) (p : ptr) (h : store) : result store :=
  a ← deref h p;
  match p with
  | Some l => Ok (<[l := f a]> h)
  | None => Panic
  end.

Definition release_at : ptr -> store -> result store := update_at release.
Definition goUp_at : ptr -> store -> result store := update_at goUp.
Definition goDown_at (cause : option error) : ptr -> store -> result store :=
  update_at (goDown cause).

(** A method value [a.release] or [a.goDown], or the empty closure that
    [Get] and [Up] return when they have no slot. *)
Inductive bound (A : Type) : Type :=
  | BoundTo (p : ptr)
  | NoOp.
Arguments BoundTo {A} p.
Arguments NoOp {A}.

(** Calling the [func()] that [Get] returned. *)
Definition call_release (f : bound unit) (h : store) : result store :=
  match f with
  | BoundTo p => release_at p h
  | NoOp => Ok h
  end.

(** Calling the [func(error)] that [Up] returned. *)
Definition call_down (f : bound (option error)) (cause : option error) (h : store) : result store :=
  match f with
  | BoundTo p => goDown_at cause p h
  | NoOp => Ok h
  end.

(** ** The notification channel *)

(** A [chan []grpc.Address]: its capacity, the values buffered, and the
    values of senders that wait for room or for a receiver. *)
Record chan : Type := mkChan {
  chan_cap : nat;
  chan_buf : list (list grpc_Address);
  chan_parked : list (list grpc_Address)
}.

Inductive completion : Type :=
  | Completed
  | Parked.

(** [c <- v] with no receiver waiting: the value goes to the buffer when
    there is room, else the sender waits with it. *)
Definition chan_send (v : list grpc_Address) (c : chan) : chan * completion :=
  if decide (length (chan_buf c) < chan_cap c)%nat
  then (mkChan (chan_cap c) (chan_buf c ++ [v]) (chan_parked c), Completed)
  else (mkChan (chan_cap c) (chan_buf c) (chan_parked c ++ [v]), Parked).

(** [<-c]: the oldest value; a waiting sender then moves up.  [None] when
    there is nothing to receive. *)
Definition chan_recv (c : chan) : option (list grpc_Address * chan) :=
  match chan_buf c, chan_parked c with
  | v :: buf, [] => Some (v, mkChan (chan_cap c) buf [])
  | v :: buf, w :: ws => Some (v, mkChan (chan_cap c) (buf ++ [w]) ws)
  | [], w :: ws => Some (w, mkChan (chan_cap c) [] ws)
  | [], [] => None
  end.

(** ** The balancer *)

Record ThroughputLoadBalancer : Type := mkLB {
  addrs : list ptr;
  target : string;
  notify : chan;
  lb_maxRequests : Z;
  numAddrs : Z;
  cleanupInterval : Z
}.

Definition set_addrs (l : list ptr) (lb : ThroughputLoadBalancer) : ThroughputLoadBalancer :=
  mkLB l (target lb) (notify lb) (lb_maxRequests lb) (numAddrs lb) (cleanupInterval lb).

Definition set_target (t : string) (lb : ThroughputLoadBalancer) : ThroughputLoadBalancer :=
  mkLB (addrs lb) t (notify lb) (lb_maxRequests lb) (numAddrs lb) (cleanupInterval lb).

Definition set_notify (c : chan) (lb : ThroughputLoadBalancer) : ThroughputLoadBalancer :=
  mkLB (addrs lb) (target lb) c (lb_maxRequests lb) (numAddrs lb) (cleanupInterval lb).

Definition set_cleanupInterval (d : Z) (lb : ThroughputLoadBalancer) : ThroughputLoadBalancer :=
  mkLB (addrs lb) (target lb) (notify lb) (lb_maxRequests lb) (numAddrs lb) d.

(** The options of the constructor.  The fields are unexported, so
    [WithCleanupInterval] is the only option that changes the balancer. *)
Inductive ThroughputLoadBalancerOption : Type :=
  | WithCleanupInterval (d : Z).

Definition apply_option (lb : ThroughputLoadBalancer) (o : ThroughputLoadBalancerOption)
  : ThroughputLoadBalancer :=
  match o with
  | WithCleanupInterval d => set_cleanupInterval d lb
  end.

(** [time.Minute], in nanoseconds. *)
Definition Minute : Z := 60 * 1000000000.

(** [make] panics on a negative size; else the slice holds [numAddrs]
    [nil]s and the channel has room for [numAddrs] values. *)
Definition NewThroughputLoadBalancer (maxRequests numAddrs : Z)
    (opts : list ThroughputLoadBalancerOption) : result ThroughputLoadBalancer :=
  if decide (numAddrs < 0) then Panic
  else Ok (foldl apply_option
             (mkLB (replicate (Z.to_nat numAddrs) None) ""
                   (mkChan (Z.to_nat numAddrs) [] [])
                   maxRequests numAddrs Minute)
             opts).

(** The slot that [Start] creates for index [i]. *)
Definition new_slot (lb : ThroughputLoadBalancer) (i : Z) : address :=
  mkSlot (mkAddress (target lb) (IInt i)) stateDown 0 (lb_maxRequests lb).

(** The loop of [Start], with [k] rounds to go from index [i].  The
    assignment [lb.addrs[i] = ...] panics outside the slice. *)
Fixpoint Start_loop (k : nat) (i : Z) (h : store) (lb : ThroughputLoadBalancer)
  : result (store * ThroughputLoadBalancer) :=
  match k with
  | O => Ok (h, lb)
  | S k' =>
      let '(h', l) := alloc (new_slot lb i) h in
      if decide (Z.to_nat i < length (addrs lb))%nat
      then Start_loop k' (wrap (i + 1)) h'
             (set_addrs (<[Z.to_nat i := Some l]> (addrs lb)) lb)
      else Panic
  end.

(** The slice of [sendNotify]: the [grpc.Address] of every slot. *)
Fixpoint grpcAddrs (h : store) (l : list ptr) : result (list grpc_Address) :=
  match l with
  | [] => Ok []
  | p :: l' =>
      a ← deref h p;
      rest ← grpcAddrs h l';
      Ok (Address a :: rest)
  end.

Definition sendNotify (h : store) (lb : ThroughputLoadBalancer)
  : result (ThroughputLoadBalancer * completion) :=
  v ← grpcAddrs h (addrs lb);
  Ok (set_notify (fst (chan_send v (notify lb))) lb, snd (chan_send v (notify lb))).

(** [Start].  [Completed]: it returned [nil].  [Parked]: it waits in
    [sendNotify] for a receiver, and returns [nil] once its value is taken. *)
Definition Start (tgt : string) (h : store) (lb : ThroughputLoadBalancer)
  : result (store * ThroughputLoadBalancer * completion) :=
  '(h', lb') ← Start_loop (Z.to_nat (numAddrs lb)) 0 h (set_target tgt lb);
  '(lb'', c) ← sendNotify h' lb';
  Ok (h', lb'', c).

(** The loop of [Up] over the slice. *)
Fixpoint Up_loop (addr : grpc_Address) (l : list ptr) (h : store)
  : result (store * bound (option error)) :=
  match l with
  | [] => Ok (h, NoOp)
  | p :: l' =>
      a ← deref h p;
      if decide (Address a = addr)
      then h' ← goUp_at p h; Ok (h', BoundTo p)
      else Up_loop addr l' h
  end.

Definition Up (addr : grpc_Address) (h : store) (lb : ThroughputLoadBalancer)
  : result (store * bound (option error)) :=
  Up_loop addr (addrs lb) h.

(** The scan of [next]: [addr] and [lowestCapacity] after the slots [l]. *)
Fixpoint scan (h : store) (l : list ptr) (addr : ptr) (lowestCapacity : Z)
  : result (ptr * Z) :=
  match l with
  | [] => Ok (addr, lowestCapacity)
  | p :: l' =>
      a ← deref h p;
      if isDown a then scan h l' addr lowestCapacity
      else if decide (capacity a < lowestCapacity)
           then scan h l' p (capacity a)
           else scan h l' addr lowestCapacity
  end.

(** How a call that may loop ends. *)
Inductive outcome (A : Type) : Type :=
  | Returns (a : A)
  | Panics
  | Sleeping.
Arguments Returns {A} a.
Arguments Panics {A}.
Arguments Sleeping {A}.

(** [next].  Each round of its [for] uses one unit of [fuel]; [Sleeping]
    is the call still in its loop after [fuel] rounds.  The value that
    [claim] returns is dropped, as in the source. *)
Fixpoint next (fuel : nat) (wait : bool) (h : store) (lb : ThroughputLoadBalancer)
  : outcome (store * ptr * option error) :=
  match fuel with
  | O => Sleeping
  | S fuel' =>
      match scan h (addrs lb) None (wrap (lb_maxRequests lb * 2)) with
      | Panic => Panics
      | Ok (Some l, _) =>
          match claim_at (Some l) h with
          | Ok (h', _) => Returns (h', Some l, None)
          | Panic => Panics
          end
      | Ok (None, _) =>
          if wait then next fuel' wait h lb
          else Returns (h, None, Some errUnavailable)
      end
  end.

(** [Get].  The context is not used. *)
Definition Get (fuel : nat) (BlockingWait : bool) (h : store) (lb : ThroughputLoadBalancer)
  : outcome (store * grpc_Address * bound unit * option error) :=
  match next fuel BlockingWait h lb with
  | Returns (h', addr, Some err) => Returns (h', zero_Address, NoOp, Some err)
  | Returns (h', addr, None) =>
      match deref h' addr with
      | Ok a => Returns (h', Address a, BoundTo addr, None)
      | Panic => Panics
      end
  | Panics => Panics
  | Sleeping => Sleeping
  end.

Definition Notify (lb : ThroughputLoadBalancer) : chan := notify lb.

Definition Close (lb : ThroughputLoadBalancer) : option error := None.

(** ** Pools *)

(** Every pointer of [l] leads to a slot of the store whose ceiling is [m]. *)
Definition ptrs_ok (h : store) (m : Z) (l : list ptr) : Prop :=
  Forall (fun p => exists k a, p = Some k /\ h !! k = Some a /\ maxRequests a = m) l.

(** A balancer after [Start]: every entry of the slice points to a slot in
    the store, and every slot carries the balancer's ceiling. *)
Definition pool_ok (h : store) (lb : ThroughputLoadBalancer) : Prop :=
  ptrs_ok h (lb_maxRequests lb) (addrs lb).

(** The slot behind entry [i] of a slice of pointers. *)
Definition slot_in (h : store) (l : list ptr) (i : nat) : option address :=
  match l !! i with
  | Some (Some k) => h !! k
  | _ => None
  end.

(** The slot at index [i] of the pool. *)
Definition slot_at (h : store) (lb : ThroughputLoadBalancer) (i : nat) : option address :=
  slot_in h (addrs lb) i.

(** Up and below its ceiling. *)
Definition available (a : address) : Prop :=
  state a = stateUp /\ activeRequests a < maxRequests a.

#[global] Instance available_dec a : Decision (available a).
Proof. unfold available. apply _. Defined.

(** ** Scenarios *)

(** A slot at its ceiling: one request of one. *)
Definition full_slot : address := mkSlot (mkAddress "backend" (IInt 0)) stateUp 1 1.

(** A pool of one slot that is up, with ceiling [m] and [n] requests
    counted, and its balancer. *)
Definition solo_store (m n : Z) : store :=
  [mkSlot (mkAddress "backend" (IInt 0)) stateUp n m].

Definition solo_lb (m : Z) : ThroughputLoadBalancer :=
  mkLB [Some 0%nat] "backend" (mkChan 1 [] []) m 1 Minute.

(** The balancer that [NewThroughputLoadBalancer m n] returns when it is
    given no option. *)
Definition solo_lb_fresh (m n : Z) : ThroughputLoadBalancer :=
  mkLB (replicate (Z.to_nat n) None) "" (mkChan (Z.to_nat n) [] []) m n Minute.

(** A pool of two slots with ceiling 1, as [Start] leaves it. *)
Definition pair_store : store :=
  [mkSlot (mkAddress "backend" (IInt 0)) stateDown 0 1;
   mkSlot (mkAddress "backend" (IInt 1)) stateDown 0 1].

Definition pair_lb : ThroughputLoadBalancer :=
  mkLB [Some 0%nat; Some 1%nat] "backend" (mkChan 2 [[mkAddress "backend" (IInt 0);
                                                       mkAddress "backend" (IInt 1)]] [])
       1 2 Minute.

(** Three slots with ceiling 2, all up, with loads 2, 1 and 0. *)
Definition trio_store : store :=
  [mkSlot (mkAddress "backend" (IInt 0)) stateUp 2 2;
   mkSlot (mkAddress "backend" (IInt 1)) stateUp 1 2;
   mkSlot (mkAddress "backend" (IInt 2)) stateUp 0 2].

Definition trio_lb : ThroughputLoadBalancer :=
  mkLB [Some 0%nat; Some 1%nat; Some 2%nat] "backend" (mkChan 3 [] []) 2 3 Minute.

(** The health reporter finds every address of the set reachable. *)
Fixpoint Up_each (vs : list grpc_Address) (h : store) (lb : ThroughputLoadBalancer)
  : result store :=
  match vs with
  | [] => Ok h
  | v :: vs' => '(h', _) ← Up v h lb; Up_each vs' h' lb
  end.

(** What a client does with a balancer: construct it, [Start] it, take the
    address set from [Notify] and report each of its addresses [Up].
    [None] when one of the steps does not come to its end. *)
Definition boot (maxRequests numAddrs : Z) (tgt : string)
  : option (store * ThroughputLoadBalancer) :=
  match NewThroughputLoadBalancer maxRequests numAddrs [] with
  | Ok lb =>
      match Start tgt [] lb with
      | Ok (h, lb', _) =>
          match chan_recv (Notify lb') with
          | Some (vs, c) =>
              match Up_each vs h lb' with
              | Ok h' => Some (h', set_notify c lb')
              | Panic => None
              end
          | None => None
          end
      | Panic => None
      end
  | Panic => None
  end.

(** The same balancer before any address was reported [Up]. *)
Definition started (maxRequests numAddrs : Z) (tgt : string)
  : option (store * ThroughputLoadBalancer) :=
  match NewThroughputLoadBalancer maxRequests numAddrs [] with
  | Ok lb =>
      match Start tgt [] lb with
      | Ok (h, lb', _) => Some (h, lb')
      | Panic => None
      end
  | Panic => None
  end.

(** ** Further notions for the properties of the whole balancer *)


(** What the constructor sets up and [Start] keeps: the slice has
    [numAddrs] entries. *)
Definition lb_ok (lb : ThroughputLoadBalancer) : Prop :=
  is_int (numAddrs lb) /\ length (addrs lb) = Z.to_nat (numAddrs lb).

(** The slot that [Start] creates at index [j] for target [tgt] and
    ceiling [m]. *)
Definition fresh_slot (tgt : string) (m : Z) (j : nat) : address :=
  mkSlot (mkAddress tgt (IInt (Z.of_nat j))) stateDown 0 m.

(** The address set that [Start] sends for target [tgt] and [n] slots. *)
Definition address_set (tgt : string) (n : nat) : list grpc_Address :=
  (fun j : nat => mkAddress tgt (IInt (Z.of_nat j))) <$> seq 0 n.

(** Two stores of the same slots: at every location the same address
    and the same ceiling. *)
Definition same_slots (h h' : store) : Prop :=
  length h' = length h /\
  forall k a, h !! k = Some a ->
    exists a', h' !! k = Some a' /\ Address a' = Address a /\
               maxRequests a' = maxRequests a.

(** The calls a client and a health reporter make on a running balancer:
    [Get], the release func of an earlier [Get], [Up], and the handle of an
    earlier [Up]. *)
Inductive call : Type :=
  | CallGet (BlockingWait : bool)
  | CallRelease (f : bound unit)
  | CallUp (addr : grpc_Address)
  | CallDown (f : bound (option error)) (cause : option error).

(** Runs the calls in order, each to its end, on one goroutine. *)
Fixpoint run_calls (fuel : nat) (cs : list call) (h : store) (lb : ThroughputLoadBalancer)
  : outcome store :=
  match cs with
  | [] => Returns h
  | CallGet w :: cs' =>
      match Get fuel w h lb with
      | Returns (h', _, _, _) => run_calls fuel cs' h' lb
      | Panics => Panics
      | Sleeping => Sleeping
      end
  | CallRelease f :: cs' =>
      match call_release f h with
      | Ok h' => run_calls fuel cs' h' lb
      | Panic => Panics
      end
  | CallUp addr :: cs' =>
      match Up addr h lb with
      | Ok (h', _) => run_calls fuel cs' h' lb
      | Panic => Panics
      end
  | CallDown f cause :: cs' =>
      match call_down f cause h with
      | Ok h' => run_calls fuel cs' h' lb
      | Panic => Panics
      end
  end.

(** ** Facts on [wrap] *)

Lemma wrap_int z : is_int z -> wrap z = z.
Proof.
  unfold is_int, min_int, max_int, wrap. intros Hz.
  rewrite Z.mod_small; lia.
Qed.

Lemma wrap_is_int z : is_int (wrap z).
Proof.
  unfold is_int, min_int, max_int, wrap.
  pose proof (Z.mod_pos_bound (z + 2 ^ 63) (2 ^ 64)). lia.
Qed.

(** ** Slots: [claim] and [release] *)

Lemma claim_below (a : address) :
  slot_ok a -> activeRequests a < maxRequests a ->
  claim a = (set_activeRequests (activeRequests a + 1) a, None).
Proof.
  intros [Ha Hm] Hlt. unfold claim.
  destruct (decide (activeRequests a >= maxRequests a)) as [Hge | _]; [lia |].
  rewrite wrap_int; [reflexivity |].
  unfold is_int, min_int, max_int in *. lia.
Qed.

Lemma claim_at_ceiling (a : address) :
  activeRequests a >= maxRequests a -> claim a = (a, Some errMaxRequestsExceeded).
Proof.
  intros Hge. unfold claim.
  destruct (decide (activeRequests a >= maxRequests a)); [reflexivity | lia].
Qed.

(** C3.  [claim] succeeds exactly when the count is below the ceiling; it
    then adds one to [activeRequests] and touches no other field.  When it
    does not succeed its error is [errMaxRequestsExceeded] and the slot is
    the one it was given. *)
Theorem claim_iff_below_ceiling (a : address) :
  slot_ok a ->
  (snd (claim a) = None <-> activeRequests a < maxRequests a) /\
  (snd (claim a) = None ->
     activeRequests (fst (claim a)) = activeRequests a + 1 /\
     Address (fst (claim a)) = Address a /\
     state (fst (claim a)) = state a /\
     maxRequests (fst (claim a)) = maxRequests a) /\
  (snd (claim a) <> None ->
     snd (claim a) = Some errMaxRequestsExceeded /\ fst (claim a) = a).
Proof.
  intros Hok.
  destruct (Z_lt_ge_dec (activeRequests a) (maxRequests a)) as [Hlt | Hge].
  - rewrite (claim_below a Hok Hlt). simpl.
    split; [tauto |]. split; [auto | congruence].
  - rewrite (claim_at_ceiling a Hge). simpl.
    split; [split; [discriminate | lia] |].
    split; [discriminate | auto].
Qed.

Lemma claim_iff_below_ceiling_witness :
  snd (claim (mkSlot zero_Address stateUp 1 2)) = None <-> 1 < 2.
Proof.
  pose proof (claim_iff_below_ceiling (mkSlot zero_Address stateUp 1 2)) as H.
  simpl in H. apply H. unfold slot_ok, is_int, min_int, max_int. simpl. lia.
Defined.

(** C6, as stated, fails: on a slot at its ceiling [claim] changes nothing
    and the [release] that follows takes one off the count. *)
Lemma claim_release_at_ceiling_loses_one :
  slot_ok full_slot /\
  activeRequests full_slot = 1 /\
  activeRequests (release (fst (claim full_slot))) = 0.
Proof.
  unfold slot_ok, is_int, min_int, max_int. simpl. repeat split; lia.
Qed.

(** C6, amended.  On a slot below its ceiling, where [claim] succeeds,
    [claim] and then [release] give back the slot as it was, so
    [activeRequests] has its value of before the [claim]. *)
Theorem claim_release_roundtrip (a : address) :
  slot_ok a -> activeRequests a < maxRequests a ->
  snd (claim a) = None /\
  release (fst (claim a)) = a /\
  activeRequests (release (fst (claim a))) = activeRequests a.
Proof.
  intros Hok Hlt.
  assert (Hr : release (set_activeRequests (activeRequests a + 1) a) = a).
  { unfold release, set_activeRequests. simpl.
    replace (activeRequests a + 1 - 1) with (activeRequests a) by lia.
    rewrite wrap_int by apply Hok. destruct a; reflexivity. }
  rewrite (claim_below a Hok Hlt).
  cbn [fst snd]. rewrite Hr. repeat split.
Qed.

Lemma claim_release_roundtrip_witness :
  activeRequests (release (fst (claim (mkSlot zero_Address stateUp 1 2)))) = 1.
Proof.
  apply (claim_release_roundtrip (mkSlot zero_Address stateUp 1 2)).
  - unfold slot_ok, is_int, min_int, max_int. simpl. lia.
  - simpl. lia.
Defined.

(** The count of a slot used with discipline is the number of claims held,
    and stays within the ceiling. *)
Lemma run_ops_invariant (ops : list slot_op) :
  forall (a : address) (held : nat),
    is_int (maxRequests a) ->
    activeRequests a = Z.of_nat held ->
    activeRequests a <= maxRequests a ->
    disciplined ops a held = true ->
    activeRequests (fst (run_ops ops a held)) = Z.of_nat (snd (run_ops ops a held)) /\
    activeRequests (fst (run_ops ops a held)) <= maxRequests (fst (run_ops ops a held)) /\
    maxRequests (fst (run_ops ops a held)) = maxRequests a.
Proof.
  induction ops as [| op ops IH]; intros a held Hm Hheld Hle Hd.
  - simpl. auto.
  - assert (Hok : slot_ok a).
    { split; [| exact Hm]. unfold is_int, min_int, max_int in *. lia. }
    destruct op; simpl in *.
    + destruct (Z_lt_ge_dec (activeRequests a) (maxRequests a)) as [Hlt | Hge].
      * rewrite (claim_below a Hok Hlt) in *.
        apply IH in Hd; simpl; auto; lia.
      * rewrite (claim_at_ceiling a Hge) in *.
        apply IH in Hd; auto.
    + destruct held as [| held']; [discriminate Hd |].
      assert (Hrel : release a = set_activeRequests (Z.of_nat held') a).
      { unfold release. rewrite wrap_int.
        - f_equal. lia.
        - unfold is_int, min_int, max_int in *. lia. }
      rewrite Hrel in *. simpl.
      apply IH in Hd; simpl; auto; lia.
Qed.

(** C7.  From [activeRequests = 0] with a positive ceiling, after any run
    of [claim]s and [release]s in which each [release] gives back a claim
    that succeeded, [0 <= activeRequests <= maxRequests]. *)
Theorem claim_release_invariant (ops : list slot_op) (a : address) :
  is_int (maxRequests a) ->
  activeRequests a = 0 ->
  maxRequests a > 0 ->
  disciplined ops a 0 = true ->
  0 <= activeRequests (fst (run_ops ops a 0)) <= maxRequests (fst (run_ops ops a 0)).
Proof.
  intros Hm H0 Hpos Hd.
  destruct (run_ops_invariant ops a 0 Hm) as (Heq & Hle & _); auto; try lia.
Qed.

Lemma claim_release_invariant_witness :
  0 <= activeRequests
         (fst (run_ops [OpClaim; OpClaim; OpClaim; OpRelease; OpClaim; OpRelease; OpRelease]
                       (mkSlot zero_Address stateUp 0 2) 0)) <= 2.
Proof.
  apply (claim_release_invariant
           [OpClaim; OpClaim; OpClaim; OpRelease; OpClaim; OpRelease; OpRelease]
           (mkSlot zero_Address stateUp 0 2)).
  - unfold is_int, min_int, max_int. simpl. lia.
  - reflexivity.
  - simpl. lia.
  - vm_compute. reflexivity.
Defined.

(** ** The scan of [next] *)

Lemma isDown_false (a : address) : isDown a = false <-> state a = stateUp.
Proof.
  unfold isDown. destruct (state a); simpl; split; intros H; congruence.
Qed.

Lemma slot_in_cons_0 (h : store) (k : loc) (l : list ptr) :
  slot_in h (Some k :: l) 0 = h !! k.
Proof. reflexivity. Qed.

Lemma slot_in_cons_S (h : store) (p : ptr) (l : list ptr) (j : nat) :
  slot_in h (p :: l) (S j) = slot_in h l j.
Proof. reflexivity. Qed.

(** What the scan leaves in [addr] and [lowestCapacity].  Either no slot
    that is up has a load below the starting bound, and both variables are
    as they were; or [addr] is the first slot of least load among the
    slots that are up, and that load is below the starting bound. *)
Lemma scan_spec (h : store) (m : Z) (l : list ptr) :
  forall (addr : ptr) (lc : Z),
    ptrs_ok h m l ->
    (scan h l addr lc = Ok (addr, lc) /\
     forall j b, slot_in h l j = Some b -> state b = stateUp -> lc <= activeRequests b)
    \/
    (exists i k a,
        l !! i = Some (Some k) /\ h !! k = Some a /\
        state a = stateUp /\ activeRequests a < lc /\
        scan h l addr lc = Ok (Some k, activeRequests a) /\
        (forall j b, slot_in h l j = Some b -> state b = stateUp ->
                     activeRequests a <= activeRequests b) /\
        (forall j b, (j < i)%nat -> slot_in h l j = Some b -> state b = stateUp ->
                     activeRequests a < activeRequests b)).
Proof.
  induction l as [| p l IH]; intros addr lc Hok.
  - left. split; [reflexivity |]. intros j b Hj. discriminate Hj.
  - apply Forall_cons in Hok as [(k0 & a0 & -> & Hk0 & _) Hok].
    assert (Hstep : scan h (Some k0 :: l) addr lc =
                    if isDown a0 then scan h l addr lc
                    else if decide (capacity a0 < lc)
                         then scan h l (Some k0) (capacity a0)
                         else scan h l addr lc).
    { simpl. unfold deref. rewrite Hk0. reflexivity. }
    rewrite Hstep. clear Hstep. unfold capacity.
    destruct (isDown a0) eqn:Hdown.
    + assert (Hst : state a0 <> stateUp).
      { intros Hup. apply isDown_false in Hup. congruence. }
      destruct (IH addr lc Hok) as [[Hs Hall] | (i & k & a & Hi & Hk & Hup & Hlt & Hs & Hmin & Hfirst)].
      * left. split; [exact Hs |].
        intros [| j] b Hj Hb.
        -- rewrite slot_in_cons_0 in Hj. congruence.
        -- rewrite slot_in_cons_S in Hj. eauto.
      * right. exists (S i), k, a. repeat split; auto.
        -- intros [| j] b Hj Hb.
           ++ rewrite slot_in_cons_0 in Hj. congruence.
           ++ rewrite slot_in_cons_S in Hj. eauto.
        -- intros [| j] b Hlt' Hj Hb.
           ++ rewrite slot_in_cons_0 in Hj. congruence.
           ++ rewrite slot_in_cons_S in Hj. apply (Hfirst j); auto. lia.
    + apply isDown_false in Hdown.
      destruct (decide (activeRequests a0 < lc)) as [Hbelow | Hnot].
      * destruct (IH (Some k0) (activeRequests a0) Hok)
          as [[Hs Hall] | (i & k & a & Hi & Hk & Hup & Hlt & Hs & Hmin & Hfirst)].
        -- right. exists 0%nat, k0, a0. repeat split; auto.
           ++ intros [| j] b Hj Hb.
              ** rewrite slot_in_cons_0 in Hj. assert (b = a0) by congruence. subst. lia.
              ** rewrite slot_in_cons_S in Hj. eauto.
           ++ intros j b Hlt'. lia.
        -- right. exists (S i), k, a. repeat split; auto; try lia.
           ++ intros [| j] b Hj Hb.
              ** rewrite slot_in_cons_0 in Hj. assert (b = a0) by congruence. subst. lia.
              ** rewrite slot_in_cons_S in Hj. eauto.
           ++ intros [| j] b Hlt' Hj Hb.
              ** rewrite slot_in_cons_0 in Hj. assert (b = a0) by congruence. subst. lia.
              ** rewrite slot_in_cons_S in Hj. apply (Hfirst j); auto. lia.
      * destruct (IH addr lc Hok)
          as [[Hs Hall] | (i & k & a & Hi & Hk & Hup & Hlt & Hs & Hmin & Hfirst)].
        -- left. split; [exact Hs |].
           intros [| j] b Hj Hb.
           ++ rewrite slot_in_cons_0 in Hj. assert (b = a0) by congruence. subst. lia.
           ++ rewrite slot_in_cons_S in Hj. eauto.
        -- right. exists (S i), k, a. repeat split; auto.
           ++ intros [| j] b Hj Hb.
              ** rewrite slot_in_cons_0 in Hj. assert (b = a0) by congruence. subst. lia.
              ** rewrite slot_in_cons_S in Hj. eauto.
           ++ intros [| j] b Hlt' Hj Hb.
              ** rewrite slot_in_cons_0 in Hj. assert (b = a0) by congruence. subst. lia.
              ** rewrite slot_in_cons_S in Hj. apply (Hfirst j); auto. lia.
Qed.

(** Without any assumption on the pool: a pointer that the scan puts in
    [addr] is an entry of the slice whose slot is up. *)
Lemma scan_result_up (h : store) (l : list ptr) :
  forall (addr : ptr) (lc : Z) (p : ptr) (c : Z),
    scan h l addr lc = Ok (p, c) ->
    p = addr \/
    exists k a, p = Some k /\ Some k ∈ l /\ h !! k = Some a /\ state a = stateUp.
Proof.
  induction l as [| q l IH]; intros addr lc p c Hs.
  - simpl in Hs. left. congruence.
  - simpl in Hs. destruct q as [k0 |]; [| discriminate Hs].
    unfold deref in Hs. destruct (h !! k0) as [a0 |] eqn:Hk0; [| discriminate Hs].
    simpl in Hs.
    assert (Hlater : forall addr' lc',
               scan h l addr' lc' = Ok (p, c) ->
               p = addr' \/
               exists k a, p = Some k /\ Some k ∈ Some k0 :: l /\ h !! k = Some a
                           /\ state a = stateUp).
    { intros addr' lc' Hs'. destruct (IH _ _ _ _ Hs') as [-> | (k & a & -> & Hin & Hk & Hup)].
      - left. reflexivity.
      - right. exists k, a. repeat split; auto. apply elem_of_cons. right. exact Hin. }
    destruct (isDown a0) eqn:Hdown; [apply (Hlater _ _ Hs) |].
    apply isDown_false in Hdown.
    destruct (decide (capacity a0 < lc)); [| apply (Hlater _ _ Hs)].
    destruct (Hlater _ _ Hs) as [-> | Hfound]; [| right; exact Hfound].
    right. exists k0, a0. repeat split; auto. apply elem_of_cons. left. reflexivity.
Qed.

(** The bound the scan starts from, as [next] computes it. *)
Lemma wrap_double (m : Z) : - 2 ^ 62 <= m < 2 ^ 62 -> wrap (m * 2) = m * 2.
Proof.
  intros Hm. apply wrap_int. unfold is_int, min_int, max_int. lia.
Qed.

(** ** [next] *)

Lemma next_found (fuel : nat) (wait : bool) (h : store) (lb : ThroughputLoadBalancer)
    (k : loc) (c : Z) (a : address) :
  scan h (addrs lb) None (wrap (lb_maxRequests lb * 2)) = Ok (Some k, c) ->
  h !! k = Some a ->
  next (S fuel) wait h lb = Returns (<[k := fst (claim a)]> h, Some k, None).
Proof.
  intros Hs Hk. simpl. rewrite Hs. unfold claim_at, deref. rewrite Hk. reflexivity.
Qed.

Lemma next_none_nonblocking (fuel : nat) (h : store) (lb : ThroughputLoadBalancer) (c : Z) :
  scan h (addrs lb) None (wrap (lb_maxRequests lb * 2)) = Ok (None, c) ->
  next (S fuel) false h lb = Returns (h, None, Some errUnavailable).
Proof. intros Hs. simpl. rewrite Hs. reflexivity. Qed.

Lemma next_none_blocking (fuel : nat) (h : store) (lb : ThroughputLoadBalancer) (c : Z) :
  scan h (addrs lb) None (wrap (lb_maxRequests lb * 2)) = Ok (None, c) ->
  next fuel true h lb = Sleeping.
Proof.
  intros Hs. induction fuel as [| fuel IH]; [reflexivity |].
  simpl. rewrite Hs. exact IH.
Qed.

(** Every way [next] can end. *)
Lemma next_outcomes (fuel : nat) (wait : bool) (h : store) (lb : ThroughputLoadBalancer) :
  next (S fuel) wait h lb = Panics \/
  (wait = true /\ next (S fuel) wait h lb = Sleeping) \/
  (wait = false /\ next (S fuel) wait h lb = Returns (h, None, Some errUnavailable)) \/
  (exists k a, h !! k = Some a /\
               next (S fuel) wait h lb = Returns (<[k := fst (claim a)]> h, Some k, None)).
Proof.
  destruct (scan h (addrs lb) None (wrap (lb_maxRequests lb * 2)))
    as [[[k |] c] |] eqn:Hs.
  - destruct (h !! k) as [a |] eqn:Hk.
    + right. right. right. exists k, a. split; [exact Hk |].
      apply (next_found _ _ _ _ _ _ _ Hs Hk).
    + left. simpl. rewrite Hs. unfold claim_at, deref. rewrite Hk. reflexivity.
  - destruct wait.
    + right. left. split; [reflexivity |]. apply (next_none_blocking _ _ _ _ Hs).
    + right. right. left. split; [reflexivity |]. apply (next_none_nonblocking _ _ _ _ Hs).
  - left. simpl. rewrite Hs. reflexivity.
Qed.

(** The call without waiting on a pool: [errUnavailable] exactly when no
    slot that is up has a load below the doubled ceiling; else the first
    slot of least load among those that are up, whatever its ceiling. *)
Lemma next_nonblocking_spec (fuel : nat) (h : store) (lb : ThroughputLoadBalancer) :
  pool_ok h lb ->
  (next (S fuel) false h lb = Returns (h, None, Some errUnavailable) /\
   forall j b, slot_at h lb j = Some b -> state b = stateUp ->
               wrap (lb_maxRequests lb * 2) <= activeRequests b)
  \/
  (exists i k a,
      addrs lb !! i = Some (Some k) /\ h !! k = Some a /\
      state a = stateUp /\ activeRequests a < wrap (lb_maxRequests lb * 2) /\
      next (S fuel) false h lb = Returns (<[k := fst (claim a)]> h, Some k, None)).
Proof.
  intros Hok.
  destruct (scan_spec h _ (addrs lb) None (wrap (lb_maxRequests lb * 2)) Hok)
    as [[Hs Hall] | (i & k & a & Hi & Hk & Hup & Hlt & Hs & _)].
  - left. split; [apply (next_none_nonblocking _ _ _ _ Hs) | exact Hall].
  - right. exists i, k, a. repeat split; auto.
    apply (next_found _ _ _ _ _ _ _ Hs Hk).
Qed.

(** With every slot down the call without waiting ends in
    [errUnavailable] and writes nothing. *)
Lemma next_all_down (fuel : nat) (h : store) (lb : ThroughputLoadBalancer) :
  pool_ok h lb ->
  (forall j b, slot_at h lb j = Some b -> state b = stateDown) ->
  next (S fuel) false h lb = Returns (h, None, Some errUnavailable).
Proof.
  intros Hok Hdown.
  destruct (next_nonblocking_spec fuel h lb Hok)
    as [[Hn _] | (i & k & a & Hi & Hk & Hup & _)]; [exact Hn |].
  assert (Hs : slot_at h lb i = Some a).
  { unfold slot_at, slot_in. rewrite Hi. exact Hk. }
  apply Hdown in Hs. congruence.
Qed.

Lemma pool_ok_slot_at (h : store) (lb : ThroughputLoadBalancer) (j : nat) (b : address) :
  pool_ok h lb -> slot_at h lb j = Some b -> maxRequests b = lb_maxRequests lb.
Proof.
  unfold pool_ok, ptrs_ok, slot_at, slot_in. intros Hok Hj.
  destruct (addrs lb !! j) as [[k |] |] eqn:Hl; try discriminate Hj.
  destruct (proj1 (Forall_lookup _ _) Hok j (Some k) Hl) as (k' & a & Hk' & Ha & Hm).
  assert (k' = k) by congruence. subst k'. congruence.
Qed.

(** C4.  A slot that [next] returns is an entry of the pool whose state
    was [stateUp] when the scan read it: [isDown] was false on it. *)
Theorem next_never_returns_down_slot (fuel : nat) (wait : bool) (h h' : store)
    (lb : ThroughputLoadBalancer) (k : loc) (e : option error) :
  next fuel wait h lb = Returns (h', Some k, e) ->
  Some k ∈ addrs lb /\
  exists a, h !! k = Some a /\ state a = stateUp /\ isDown a = false.
Proof.
  induction fuel as [| fuel IH]; intros Hn; [discriminate Hn |].
  simpl in Hn.
  destruct (scan h (addrs lb) None (wrap (lb_maxRequests lb * 2)))
    as [[[k1 |] c] |] eqn:Hs; try discriminate Hn.
  - destruct (claim_at (Some k1) h) as [[h1 e1] |]; [| discriminate Hn].
    assert (k1 = k) by congruence. subst k1.
    destruct (scan_result_up _ _ _ _ _ _ Hs) as [Hnil | (k2 & a & Hk2 & Hin & Hk & Hup)];
      [discriminate Hnil |].
    assert (k2 = k) by congruence. subst k2.
    split; [exact Hin |]. exists a. repeat split; auto.
    apply isDown_false. exact Hup.
  - destruct wait; [apply IH; exact Hn | discriminate Hn].
Qed.

Lemma next_never_returns_down_slot_witness :
  Some 0%nat ∈ addrs (solo_lb 2) /\
  exists a, solo_store 2 0 !! 0%nat = Some a /\ state a = stateUp /\ isDown a = false.
Proof.
  apply (next_never_returns_down_slot 1 false (solo_store 2 0) (solo_store 2 1)
           (solo_lb 2) 0%nat None).
  vm_compute. reflexivity.
Defined.

(** C2, as stated, fails when the doubled ceiling does not fit an [int]:
    with a ceiling of [2^62] the scan starts from the bound [-2^63], below
    every load, and the idle slot of the pool is not selected. *)
Lemma next_misses_idle_slot_when_double_wraps :
  boot (2 ^ 62) 1 "backend" = Some (solo_store (2 ^ 62) 0, solo_lb (2 ^ 62)) /\
  slot_at (solo_store (2 ^ 62) 0) (solo_lb (2 ^ 62)) 0 =
    Some (mkSlot (mkAddress "backend" (IInt 0)) stateUp 0 (2 ^ 62)) /\
  available (mkSlot (mkAddress "backend" (IInt 0)) stateUp 0 (2 ^ 62)) /\
  next 1 false (solo_store (2 ^ 62) 0) (solo_lb (2 ^ 62)) =
    Returns (solo_store (2 ^ 62) 0, None, Some errUnavailable).
Proof.
  split; [vm_compute; reflexivity |].
  split; [vm_compute; reflexivity |].
  split; [| vm_compute; reflexivity].
  unfold available. simpl. split; [reflexivity | lia].
Qed.

(** C2, amended.  With a ceiling [0 <= maxRequests < 2^62] and a pool that
    has a slot that is up and below the ceiling, [next] returns a slot that
    is up and below the ceiling, of least load among such slots and of least
    index among those of that load, and its call of [claim] on it succeeds. *)
Theorem next_selects_least_loaded (fuel : nat) (wait : bool) (h : store)
    (lb : ThroughputLoadBalancer) :
  pool_ok h lb ->
  0 <= lb_maxRequests lb < 2 ^ 62 ->
  (exists j b, slot_at h lb j = Some b /\ available b) ->
  exists i k a,
    addrs lb !! i = Some (Some k) /\ h !! k = Some a /\ available a /\
    next (S fuel) wait h lb = Returns (<[k := fst (claim a)]> h, Some k, None) /\
    snd (claim a) = None /\
    (forall j b, slot_at h lb j = Some b -> available b ->
                 activeRequests a <= activeRequests b) /\
    (forall j b, slot_at h lb j = Some b -> available b ->
                 activeRequests b = activeRequests a -> (i <= j)%nat).
Proof.
  intros Hok Hm (j0 & b0 & Hj0 & Hup0 & Hlt0).
  pose proof (pool_ok_slot_at _ _ _ _ Hok Hj0) as Hm0.
  assert (Hw : wrap (lb_maxRequests lb * 2) = lb_maxRequests lb * 2)
    by (apply wrap_double; lia).
  destruct (scan_spec h _ (addrs lb) None (wrap (lb_maxRequests lb * 2)) Hok)
    as [[_ Hall] | (i & k & a & Hi & Hk & Hup & Hlt & Hs & Hmin & Hfirst)].
  - specialize (Hall j0 b0 Hj0 Hup0). lia.
  - assert (Hsa : slot_at h lb i = Some a).
    { unfold slot_at, slot_in. rewrite Hi. exact Hk. }
    pose proof (pool_ok_slot_at _ _ _ _ Hok Hsa) as Hma.
    pose proof (Hmin j0 b0 Hj0 Hup0) as Hle.
    assert (Hbelow : activeRequests a < maxRequests a) by lia.
    exists i, k, a. repeat split; auto.
    + apply (next_found _ _ _ _ _ _ _ Hs Hk).
    + unfold claim. destruct (decide (activeRequests a >= maxRequests a)); [lia | reflexivity].
    + intros j b Hj [Hb _]. apply (Hmin j b Hj Hb).
    + intros j b Hj [Hb _] Heq.
      destruct (le_lt_dec i j) as [Hij | Hji]; [exact Hij |].
      pose proof (Hfirst j b Hji Hj Hb). lia.
Qed.

Lemma next_selects_least_loaded_witness :
  exists i k a,
    addrs trio_lb !! i = Some (Some k) /\ trio_store !! k = Some a /\ available a /\
    next 1 true trio_store trio_lb
      = Returns (<[k := fst (claim a)]> trio_store, Some k, None) /\
    snd (claim a) = None /\
    (forall j b, slot_at trio_store trio_lb j = Some b -> available b ->
                 activeRequests a <= activeRequests b) /\
    (forall j b, slot_at trio_store trio_lb j = Some b -> available b ->
                 activeRequests b = activeRequests a -> (i <= j)%nat).
Proof.
  apply (next_selects_least_loaded 0 true trio_store trio_lb).
  - unfold pool_ok, ptrs_ok. simpl.
    repeat constructor; eexists _, _; repeat split; reflexivity.
  - simpl. lia.
  - exists 1%nat, (mkSlot (mkAddress "backend" (IInt 1)) stateUp 1 2).
    split; [reflexivity |]. unfold available. simpl. split; [reflexivity | lia].
Defined.

(** Loads 2, 1 and 0 under a ceiling of 2: the idle third slot is taken. *)
Example next_trio :
  next 1 false trio_store trio_lb =
    Returns (<[2%nat := mkSlot (mkAddress "backend" (IInt 2)) stateUp 1 2]> trio_store,
             Some 2%nat, None).
Proof. vm_compute. reflexivity. Qed.

(** ** [Get] *)

(** [Get] hands on what [next] returned. *)
Lemma Get_of_next (fuel : nat) (wait : bool) (h : store) (lb : ThroughputLoadBalancer) :
  (next fuel wait h lb = Panics -> Get fuel wait h lb = Panics) /\
  (next fuel wait h lb = Sleeping -> Get fuel wait h lb = Sleeping) /\
  (forall h' p err, next fuel wait h lb = Returns (h', p, Some err) ->
                    Get fuel wait h lb = Returns (h', zero_Address, NoOp, Some err)) /\
  (forall k a, h !! k = Some a ->
               next fuel wait h lb = Returns (<[k := fst (claim a)]> h, Some k, None) ->
               Get fuel wait h lb =
                 Returns (<[k := fst (claim a)]> h, Address a, BoundTo (Some k), None)).
Proof.
  unfold Get. repeat split.
  - intros ->. reflexivity.
  - intros ->. reflexivity.
  - intros h' p err ->. reflexivity.
  - intros k a Hk ->. unfold deref.
    rewrite list_lookup_insert_eq by (apply lookup_lt_Some in Hk; exact Hk).
    unfold claim. destruct (decide (activeRequests a >= maxRequests a)); reflexivity.
Qed.

(** C5.  Every way a call of [Get] can end: a panic, the retry loop still
    asleep (only when asked to wait), [errUnavailable] with the store
    untouched (only when asked not to wait), or a slot with a [nil] error.
    [errMaxRequestsExceeded] is not among them: what [claim] returns on
    the chosen slot does not reach the caller. *)
Theorem Get_error_nil_or_Unavailable (fuel : nat) (wait : bool) (h : store)
    (lb : ThroughputLoadBalancer) :
  Get (S fuel) wait h lb = Panics \/
  (wait = true /\ Get (S fuel) wait h lb = Sleeping) \/
  (wait = false /\
   Get (S fuel) wait h lb = Returns (h, zero_Address, NoOp, Some errUnavailable)) \/
  (exists k a, h !! k = Some a /\
               Get (S fuel) wait h lb =
                 Returns (<[k := fst (claim a)]> h, Address a, BoundTo (Some k), None)).
Proof.
  destruct (Get_of_next (S fuel) wait h lb) as (Hp & Hsl & He & Hr).
  destruct (next_outcomes fuel wait h lb)
    as [Hn | [[Hw Hn] | [[Hw Hn] | (k & a & Hk & Hn)]]].
  - left. auto.
  - right. left. auto.
  - right. right. left. split; [exact Hw |]. apply (He _ _ _ Hn).
  - right. right. right. exists k, a. split; [exact Hk |]. apply (Hr _ _ Hk Hn).
Qed.

(** In particular no call of [Get] returns a non-[nil] error other than
    [errUnavailable]. *)
Lemma Get_error_values (fuel : nat) (wait : bool) (h h' : store)
    (lb : ThroughputLoadBalancer) (addr : grpc_Address) (f : bound unit) (e : option error) :
  Get fuel wait h lb = Returns (h', addr, f, e) ->
  e = None \/ e = Some errUnavailable.
Proof.
  destruct fuel as [| fuel]; [discriminate |].
  unfold Get. intros Hg.
  destruct (next_outcomes fuel wait h lb)
    as [Hn | [[_ Hn] | [[_ Hn] | (k & a & _ & Hn)]]];
    rewrite Hn in Hg; try discriminate Hg.
  - inversion Hg. auto.
  - destruct (deref _ _); inversion Hg. auto.
Qed.

(** On a pool the call without waiting returns. *)
Lemma Get_nonblocking_returns (fuel : nat) (h : store) (lb : ThroughputLoadBalancer) :
  pool_ok h lb ->
  exists h' addr f e, Get (S fuel) false h lb = Returns (h', addr, f, e).
Proof.
  intros Hok.
  destruct (Get_of_next (S fuel) false h lb) as (_ & _ & He & Hr).
  destruct (next_nonblocking_spec fuel h lb Hok)
    as [[Hn _] | (i & k & a & _ & Hk & _ & _ & Hn)].
  - rewrite (He _ _ _ Hn). eauto.
  - rewrite (Hr _ _ Hk Hn). eauto.
Qed.

(** With every slot down [Get] without waiting fails with
    [errUnavailable] and leaves every count as it was. *)
Lemma Get_all_down (fuel : nat) (h : store) (lb : ThroughputLoadBalancer) :
  pool_ok h lb ->
  (forall j b, slot_at h lb j = Some b -> state b = stateDown) ->
  Get (S fuel) false h lb = Returns (h, zero_Address, NoOp, Some errUnavailable).
Proof.
  intros Hok Hdown.
  destruct (Get_of_next (S fuel) false h lb) as (_ & _ & He & _).
  apply (He _ None). apply next_all_down; assumption.
Qed.

(** C1, where the code departs from it.  A balancer of one slot with
    ceiling 1 is constructed, started and its address reported up.  The
    first [Get] takes the slot to its ceiling.  The second [Get], without
    waiting, finds the only slot up and at its ceiling; it does not fail
    with [errUnavailable]: it returns that slot with a [nil] error, its
    [claim] having failed unseen.  The count stays at 1 although two
    callers now hold the address, and the two releases they owe take it
    to -1. *)
Theorem Get_at_ceiling_returns_slot :
  boot 1 1 "backend" = Some (solo_store 1 0, solo_lb 1) /\
  Get 1 false (solo_store 1 0) (solo_lb 1) =
    Returns (solo_store 1 1, mkAddress "backend" (IInt 0), BoundTo (Some 0%nat), None) /\
  (forall j b, slot_at (solo_store 1 1) (solo_lb 1) j = Some b ->
               state b = stateUp /\ activeRequests b >= maxRequests b) /\
  snd (claim full_slot) = Some errMaxRequestsExceeded /\
  Get 1 false (solo_store 1 1) (solo_lb 1) =
    Returns (solo_store 1 1, mkAddress "backend" (IInt 0), BoundTo (Some 0%nat), None) /\
  (call_release (BoundTo (Some 0%nat)) (solo_store 1 1) ≫=
     call_release (BoundTo (Some 0%nat))) = Ok (solo_store 1 (-1)).
Proof.
  split; [vm_compute; reflexivity |].
  split; [vm_compute; reflexivity |].
  split.
  { intros [| j] b Hj; [| destruct j; discriminate Hj].
    inversion Hj. simpl. split; [reflexivity | lia]. }
  split; [vm_compute; reflexivity |].
  split; vm_compute; reflexivity.
Qed.

(** C10, as stated, fails for a ceiling below [-2^62]: its double wraps to
    a positive bound, the idle slot is below it, and [Get] returns the slot. *)
Lemma Get_picks_idle_slot_when_negative_double_wraps :
  boot (- 2 ^ 62 - 1) 1 "backend" =
    Some (solo_store (- 2 ^ 62 - 1) 0, solo_lb (- 2 ^ 62 - 1)) /\
  lb_maxRequests (solo_lb (- 2 ^ 62 - 1)) <= 0 /\
  wrap (lb_maxRequests (solo_lb (- 2 ^ 62 - 1)) * 2) = 2 ^ 63 - 2 /\
  Get 1 false (solo_store (- 2 ^ 62 - 1) 0) (solo_lb (- 2 ^ 62 - 1)) =
    Returns (solo_store (- 2 ^ 62 - 1) 0, mkAddress "backend" (IInt 0),
             BoundTo (Some 0%nat), None).
Proof.
  split; [vm_compute; reflexivity |].
  split; [simpl; lia |].
  split; vm_compute; reflexivity.
Qed.

(** C10, amended.  With a ceiling [-2^62 <= maxRequests <= 0] the bound
    the scan starts from is [maxRequests * 2 <= 0]; on a pool whose loads
    are not negative no slot is below it, and [Get] without waiting fails
    with [errUnavailable], whatever the state of the slots. *)
Theorem Get_unavailable_when_ceiling_not_positive (fuel : nat) (h : store)
    (lb : ThroughputLoadBalancer) :
  pool_ok h lb ->
  - 2 ^ 62 <= lb_maxRequests lb <= 0 ->
  (forall j b, slot_at h lb j = Some b -> 0 <= activeRequests b) ->
  wrap (lb_maxRequests lb * 2) <= 0 /\
  Get (S fuel) false h lb = Returns (h, zero_Address, NoOp, Some errUnavailable).
Proof.
  intros Hok Hm Hload.
  assert (Hw : wrap (lb_maxRequests lb * 2) = lb_maxRequests lb * 2)
    by (apply wrap_double; lia).
  split; [lia |].
  destruct (Get_of_next (S fuel) false h lb) as (_ & _ & He & _).
  destruct (next_nonblocking_spec fuel h lb Hok)
    as [[Hn _] | (i & k & a & Hi & Hk & Hup & Hlt & _)].
  - apply (He _ _ _ Hn).
  - assert (Hs : slot_at h lb i = Some a).
    { unfold slot_at, slot_in. rewrite Hi. exact Hk. }
    apply Hload in Hs. lia.
Qed.

Lemma Get_unavailable_when_ceiling_not_positive_witness :
  boot 0 1 "backend" = Some (solo_store 0 0, solo_lb 0) /\
  Get 1 false (solo_store 0 0) (solo_lb 0) =
    Returns (solo_store 0 0, zero_Address, NoOp, Some errUnavailable).
Proof.
  split; [vm_compute; reflexivity |].
  apply (Get_unavailable_when_ceiling_not_positive 0 (solo_store 0 0) (solo_lb 0)).
  - repeat constructor. exists 0%nat, (mkSlot (mkAddress "backend" (IInt 0)) stateUp 0 0).
    repeat split.
  - simpl. lia.
  - intros [| j] b Hj; [| destruct j; discriminate Hj].
    inversion Hj. simpl. lia.
Defined.

(** ** Construction and [Start] *)

Lemma foldl_apply_option_fields (opts : list ThroughputLoadBalancerOption) :
  forall lb,
    addrs (foldl apply_option lb opts) = addrs lb /\
    target (foldl apply_option lb opts) = target lb /\
    notify (foldl apply_option lb opts) = notify lb /\
    lb_maxRequests (foldl apply_option lb opts) = lb_maxRequests lb /\
    numAddrs (foldl apply_option lb opts) = numAddrs lb.
Proof.
  induction opts as [| [d] opts IH]; intros lb; simpl; [auto |].
  destruct (IH (set_cleanupInterval d lb)) as (H1 & H2 & H3 & H4 & H5).
  rewrite H1, H2, H3, H4, H5. auto.
Qed.

(** The balancer that the constructor returns. *)
Lemma NewThroughputLoadBalancer_fields (m n : Z) (opts : list ThroughputLoadBalancerOption)
    (lb : ThroughputLoadBalancer) :
  NewThroughputLoadBalancer m n opts = Ok lb ->
  0 <= n /\
  addrs lb = replicate (Z.to_nat n) None /\
  notify lb = mkChan (Z.to_nat n) [] [] /\
  lb_maxRequests lb = m /\
  numAddrs lb = n.
Proof.
  unfold NewThroughputLoadBalancer.
  destruct (decide (n < 0)) as [Hneg | Hpos]; [discriminate |].
  intros Heq. inversion Heq as [Hlb]. clear Heq.
  match goal with |- context [foldl apply_option ?b opts] =>
    destruct (foldl_apply_option_fields opts b) as (H1 & _ & H3 & H4 & H5) end.
  rewrite H1, H3, H4, H5. simpl. repeat split; auto. lia.
Qed.

(** The loop of [Start] for [k] rounds from index [i]: it allocates the
    slots of the indices [i .. i+k-1] in order and stores their pointers at
    these indices. *)
Lemma Start_loop_spec (k : nat) :
  forall (i : nat) (h : store) (lb : ThroughputLoadBalancer),
    (i + k <= length (addrs lb))%nat ->
    Z.of_nat (i + k) <= max_int ->
    exists lb',
      Start_loop k (Z.of_nat i) h lb =
        Ok (h ++ ((fun j : nat => new_slot lb (Z.of_nat j)) <$> seq i k), lb') /\
      target lb' = target lb /\ notify lb' = notify lb /\
      lb_maxRequests lb' = lb_maxRequests lb /\ numAddrs lb' = numAddrs lb /\
      length (addrs lb') = length (addrs lb) /\
      (forall j, (i <= j < i + k)%nat ->
                 addrs lb' !! j = Some (Some (length h + (j - i))%nat)) /\
      (forall j, (j < i \/ i + k <= j)%nat -> addrs lb' !! j = addrs lb !! j).
Proof.
  induction k as [| k IH]; intros i h lb Hlen Hmax.
  - exists lb. simpl. rewrite app_nil_r. repeat split; auto. intros j Hj. lia.
  - cbn [Start_loop alloc]. rewrite Nat2Z.id.
    destruct (decide (i < length (addrs lb))%nat) as [_ | Hout]; [| lia].
    assert (Hw : wrap (Z.of_nat i + 1) = Z.of_nat (S i)).
    { rewrite wrap_int; [lia |]. unfold is_int, min_int, max_int in *. lia. }
    rewrite Hw.
    destruct (IH (S i) (h ++ [new_slot lb (Z.of_nat i)])
                 (set_addrs (<[i := Some (length h)]> (addrs lb)) lb))
      as (lb' & Hrun & Ht & Hn & Hm & Hna & Hl & Hin & Hout).
    { simpl. rewrite length_insert. lia. }
    { lia. }
    exists lb'. simpl in Ht, Hn, Hm, Hna, Hl.
    rewrite length_insert in Hl.
    split.
    { rewrite Hrun. cbn [seq fmap list_fmap]. rewrite <- app_assoc. reflexivity. }
    repeat split; auto.
    + intros j Hj. destruct (decide (j = i)) as [-> | Hne].
      * rewrite Hout by lia. simpl.
        rewrite list_lookup_insert_eq by lia. do 2 f_equal. lia.
      * rewrite Hin by lia. rewrite length_app. simpl. do 2 f_equal. lia.
    + intros j Hj. rewrite Hout by lia. simpl.
      apply list_lookup_insert_ne. lia.
Qed.

(** The slice that [sendNotify] builds from a slice of good pointers. *)
Lemma grpcAddrs_spec (h : store) (l : list ptr) :
  forall (f : nat -> address),
    (forall j, (j < length l)%nat -> slot_in h l j = Some (f j)) ->
    grpcAddrs h l = Ok ((fun j : nat => Address (f j)) <$> seq 0 (length l)).
Proof.
  induction l as [| p l IH]; intros f Hf; [reflexivity |].
  pose proof (Hf 0%nat ltac:(simpl; lia)) as H0.
  destruct p as [k |]; [| discriminate H0].
  rewrite slot_in_cons_0 in H0.
  cbn [grpcAddrs deref]. rewrite H0.
  rewrite (IH (fun j => f (S j))).
  - cbn [length seq mbind result_bind]. rewrite <- fmap_S_seq.
    rewrite fmap_cons, <- list_fmap_compose. reflexivity.
  - intros j Hj. rewrite <- (Hf (S j)) by (simpl; lia). reflexivity.
Qed.

(** C8.  On a balancer just constructed with pool size [n], [Start] runs
    to its send and offers one value on the notification channel: the
    slice of the [n] addresses [(tgt, 0) .. (tgt, n-1)].  The channel
    holds that value and nothing else, and a receiver gets it; for
    [n > 0] it is buffered and [Start] has returned.  Every slot is
    created down, with no request counted and the configured ceiling. *)
Theorem Start_publishes_address_set (m n : Z) (opts : list ThroughputLoadBalancerOption)
    (tgt : string) (h : store) (lb : ThroughputLoadBalancer) :
  is_int n ->
  NewThroughputLoadBalancer m n opts = Ok lb ->
  exists h' lb' c,
    Start tgt h lb = Ok (h', lb', c) /\
    let v := (fun i : nat => mkAddress tgt (IInt (Z.of_nat i))) <$> seq 0 (Z.to_nat n) in
    chan_buf (notify lb') ++ chan_parked (notify lb') = [v] /\
    length v = Z.to_nat n /\
    chan_recv (Notify lb') = Some (v, mkChan (Z.to_nat n) [] []) /\
    (0 < n -> c = Completed /\ chan_buf (notify lb') = [v]) /\
    length (addrs lb') = Z.to_nat n /\
    (forall i, (i < Z.to_nat n)%nat ->
               slot_at h' lb' i =
                 Some (mkSlot (mkAddress tgt (IInt (Z.of_nat i))) stateDown 0 m)) /\
    pool_ok h' lb'.
Proof.
  intros Hint Hnew.
  destruct (NewThroughputLoadBalancer_fields _ _ _ _ Hnew) as (Hn & Haddrs & Hnot & Hmax & Hnum).
  set (N := Z.to_nat n) in *.
  set (lb0 := set_target tgt lb).
  assert (HlenN : length (addrs lb0) = N).
  { simpl. rewrite Haddrs. apply length_replicate. }
  destruct (Start_loop_spec N 0 h lb0)
    as (lb1 & Hrun & Ht & Hc & Hm1 & _ & Hl & Hin & _).
  { lia. }
  { unfold is_int in Hint. subst N. lia. }
  set (f := fun j : nat => new_slot lb0 (Z.of_nat j)) in *.
  set (h1 := h ++ (f <$> seq 0 N)) in *.
  assert (Hslot : forall j, (j < N)%nat -> slot_in h1 (addrs lb1) j = Some (f j)).
  { intros j Hj. unfold slot_in. rewrite Hin by lia.
    replace (length h + (j - 0))%nat with (length h + j)%nat by lia.
    unfold h1. rewrite lookup_app_r by lia.
    replace (length h + j - length h)%nat with j by lia.
    rewrite list_lookup_fmap, lookup_seq_lt by lia. reflexivity. }
  assert (Hv : grpcAddrs h1 (addrs lb1) =
               Ok ((fun i : nat => mkAddress tgt (IInt (Z.of_nat i))) <$> seq 0 N)).
  { rewrite (grpcAddrs_spec h1 (addrs lb1) f) by (rewrite Hl, HlenN; exact Hslot).
    rewrite Hl, HlenN. reflexivity. }
  set (v := (fun i : nat => mkAddress tgt (IInt (Z.of_nat i))) <$> seq 0 N) in *.
  assert (Hchan : notify lb1 = mkChan N [] []).
  { rewrite Hc. simpl. exact Hnot. }
  assert (Hstart : Start tgt h lb =
                   Ok (h1, set_notify (fst (chan_send v (notify lb1))) lb1,
                       snd (chan_send v (notify lb1)))).
  { unfold Start. rewrite Hnum. fold N. fold lb0.
    change 0 with (Z.of_nat 0). rewrite Hrun.
    cbn [mbind result_bind]. unfold sendNotify. rewrite Hv. reflexivity. }
  eexists _, _, _. split; [exact Hstart |].
  cbn zeta. unfold Notify. cbn [notify set_notify addrs]. rewrite Hchan.
  assert (Hlv : length v = N).
  { unfold v. rewrite length_fmap. apply length_seq. }
  split; [| split; [exact Hlv |]].
  { unfold chan_send. cbn [chan_buf chan_cap chan_parked length].
    destruct (decide (0 < N)%nat); reflexivity. }
  split.
  { unfold chan_send. cbn [chan_buf chan_cap chan_parked length].
    destruct (decide (0 < N)%nat); reflexivity. }
  split.
  { intros Hpos. unfold chan_send. cbn [chan_buf chan_cap chan_parked length].
    destruct (decide (0 < N)%nat) as [_ | Hz]; [split; reflexivity |].
    subst N. lia. }
  split; [rewrite Hl; exact HlenN |].
  split.
  { intros i Hi. unfold slot_at. cbn [addrs set_notify]. rewrite (Hslot i Hi).
    unfold f, new_slot. simpl. rewrite Hmax. reflexivity. }
  unfold pool_ok, ptrs_ok. cbn [addrs lb_maxRequests set_notify].
  apply Forall_lookup. intros j p Hp.
  assert (Hj : (j < N)%nat).
  { apply lookup_lt_Some in Hp. lia. }
  pose proof (Hslot j Hj) as Hs. unfold slot_in in Hs. rewrite Hp in Hs.
  destruct p as [k |]; [| discriminate Hs].
  exists k, (f j). repeat split; auto.
Qed.

Lemma Start_publishes_address_set_witness :
  exists h' lb' c,
    Start "backend" [] (solo_lb_fresh 2 3) = Ok (h', lb', c) /\
    chan_buf (notify lb') ++ chan_parked (notify lb') =
      [[mkAddress "backend" (IInt 0); mkAddress "backend" (IInt 1);
        mkAddress "backend" (IInt 2)]].
Proof.
  destruct (Start_publishes_address_set 2 3 [] "backend" [] (solo_lb_fresh 2 3))
    as (h' & lb' & c & Hs & Hv & _).
  - unfold is_int, min_int, max_int. lia.
  - vm_compute. reflexivity.
  - exists h', lb', c. split; [exact Hs | exact Hv].
Defined.

(** ** [Up] and its handle *)

(** The loop of [Up]: it stops at the first slot whose [grpc.Address]
    equals [addr], in [Addr] and in [Metadata]. *)
Lemma Up_loop_spec (h : store) (m : Z) (addr : grpc_Address) (l : list ptr) :
  ptrs_ok h m l ->
  ((forall j b, slot_in h l j = Some b -> Address b <> addr) /\
   Up_loop addr l h = Ok (h, NoOp))
  \/
  (exists i k a,
      l !! i = Some (Some k) /\ h !! k = Some a /\ Address a = addr /\
      (forall j b, (j < i)%nat -> slot_in h l j = Some b -> Address b <> addr) /\
      Up_loop addr l h = Ok (<[k := goUp a]> h, BoundTo (Some k))).
Proof.
  induction l as [| p l IH]; intros Hok.
  - left. split; [| reflexivity]. intros j b Hj. discriminate Hj.
  - apply Forall_cons in Hok as [(k0 & a0 & -> & Hk0 & _) Hok].
    cbn [Up_loop deref]. rewrite Hk0. cbn [mbind result_bind].
    destruct (decide (Address a0 = addr)) as [Heq | Hne].
    + right. exists 0%nat, k0, a0. repeat split; auto.
      * intros j b Hj. lia.
      * unfold goUp_at, update_at. cbn [deref]. rewrite Hk0. reflexivity.
    + destruct (IH Hok) as [[Hnone Hrun] | (i & k & a & Hi & Hk & Ha & Hfirst & Hrun)].
      * left. split; [| exact Hrun].
        intros [| j] b Hj.
        -- rewrite slot_in_cons_0 in Hj. congruence.
        -- rewrite slot_in_cons_S in Hj. eauto.
      * right. exists (S i), k, a. repeat split; auto.
        intros [| j] b Hlt Hj.
        -- rewrite slot_in_cons_0 in Hj. congruence.
        -- rewrite slot_in_cons_S in Hj. apply (Hfirst j); auto. lia.
Qed.

Lemma pair_pool_ok : pool_ok pair_store pair_lb.
Proof.
  unfold pool_ok, ptrs_ok. simpl.
  repeat constructor; eexists _, _; repeat split; reflexivity.
Qed.

(** C9, as stated, fails on the part of the base address.  The slots of a
    started pool carry their index in [Metadata]; an address that gives
    only the base ([Metadata] left [nil]) equals none of them, and [Up]
    marks no slot and returns the empty handle. *)
Lemma Up_base_address_matches_no_slot :
  started 1 2 "backend" = Some (pair_store, pair_lb) /\
  Forall (fun a => Addr (Address a) = "backend" /\ state a = stateDown) pair_store /\
  Up (mkAddress "backend" INil) pair_store pair_lb = Ok (pair_store, NoOp).
Proof.
  split; [vm_compute; reflexivity |].
  split; [repeat constructor | vm_compute; reflexivity].
Qed.

(** C9, amended.  [Up addr] looks for the first slot whose address equals
    [addr] in both fields, the base and the index.  When there is one, that
    slot goes to [stateUp], nothing else changes, and the handle returned
    puts that same slot to [stateDown] in whatever store it is called on,
    whatever the cause.  When there is none (as for an address that gives
    only the base) no slot changes and the handle does nothing. *)
Theorem Up_marks_exact_match (addr : grpc_Address) (h : store) (lb : ThroughputLoadBalancer) :
  pool_ok h lb ->
  ((forall j b, slot_at h lb j = Some b -> Address b <> addr) /\
   Up addr h lb = Ok (h, NoOp) /\
   forall cause h2, call_down NoOp cause h2 = Ok h2)
  \/
  (exists i k a,
      addrs lb !! i = Some (Some k) /\ h !! k = Some a /\
      Addr (Address a) = Addr addr /\ Metadata (Address a) = Metadata addr /\
      (forall j b, (j < i)%nat -> slot_at h lb j = Some b -> Address b <> addr) /\
      Up addr h lb = Ok (<[k := set_state stateUp a]> h, BoundTo (Some k)) /\
      forall cause h2 a2, h2 !! k = Some a2 ->
        call_down (BoundTo (Some k)) cause h2 = Ok (<[k := set_state stateDown a2]> h2)).
Proof.
  intros Hok. unfold Up, slot_at.
  destruct (Up_loop_spec h _ addr (addrs lb) Hok)
    as [[Hnone Hrun] | (i & k & a & Hi & Hk & Ha & Hfirst & Hrun)].
  - left. repeat split; auto.
  - right. exists i, k, a. subst addr. repeat split; auto.
    intros cause h2 a2 Hk2. unfold call_down, goDown_at, update_at.
    cbn [deref]. rewrite Hk2. reflexivity.
Qed.

Lemma Up_marks_exact_match_witness :
  exists r, Up (mkAddress "backend" (IInt 1)) pair_store pair_lb = Ok r.
Proof.
  destruct (Up_marks_exact_match (mkAddress "backend" (IInt 1)) pair_store pair_lb pair_pool_ok)
    as [(_ & Hrun & _) | (i & k & a & _ & _ & _ & _ & _ & Hrun & _)];
    eexists; exact Hrun.
Defined.

(** ** More on the constructor *)



Lemma New_lb_ok (m n : Z) (opts : list ThroughputLoadBalancerOption)
    (lb : ThroughputLoadBalancer) :
  is_int n -> NewThroughputLoadBalancer m n opts = Ok lb -> lb_ok lb.
Proof.
  intros Hint Hnew.
  destruct (NewThroughputLoadBalancer_fields _ _ _ _ Hnew) as (_ & Ha & _ & _ & Hn).
  unfold lb_ok. rewrite Ha, Hn, length_replicate. auto.
Qed.

(** ** [Start] on any balancer *)

(** [Start] on a balancer whose slice has [numAddrs] entries, whatever
    the store and whatever the slice held: the store grows by the new
    slots, the slice holds their pointers, and the address set is sent. *)
Lemma Start_spec (tgt : string) (h : store) (lb : ThroughputLoadBalancer) :
  lb_ok lb ->
  exists lb',
    Start tgt h lb =
      Ok (h ++ (fresh_slot tgt (lb_maxRequests lb) <$> seq 0 (Z.to_nat (numAddrs lb))),
          lb',
          snd (chan_send (address_set tgt (Z.to_nat (numAddrs lb))) (notify lb))) /\
    addrs lb' = (fun j : nat => Some (length h + j)%nat) <$> seq 0 (Z.to_nat (numAddrs lb)) /\
    notify lb' = fst (chan_send (address_set tgt (Z.to_nat (numAddrs lb))) (notify lb)) /\
    target lb' = tgt /\
    lb_maxRequests lb' = lb_maxRequests lb /\
    numAddrs lb' = numAddrs lb.
Proof.
  intros [Hint Hlen].
  set (N := Z.to_nat (numAddrs lb)) in *.
  set (lb0 := set_target tgt lb).
  destruct (Start_loop_spec N 0 h lb0)
    as (lb1 & Hrun & Ht & Hc & Hm1 & Hn1 & Hl & Hin & _).
  { simpl. lia. }
  { unfold is_int, min_int, max_int in *. subst N. lia. }
  assert (Haddrs : addrs lb1 = (fun j : nat => Some (length h + j)%nat) <$> seq 0 N).
  { apply list_eq. intros j. destruct (decide (j < N)%nat) as [Hj | Hj].
    - rewrite Hin by lia. rewrite list_lookup_fmap, lookup_seq_lt by lia.
      simpl. do 2 f_equal. lia.
    - rewrite !lookup_ge_None_2; [reflexivity | |].
      + rewrite length_fmap, length_seq. lia.
      + rewrite Hl. simpl. lia. }
  assert (Hslot : forall j, (j < length (addrs lb1))%nat ->
                            slot_in (h ++ (fresh_slot tgt (lb_maxRequests lb) <$> seq 0 N))
                                    (addrs lb1) j
                            = Some (fresh_slot tgt (lb_maxRequests lb) j)).
  { intros j Hj. rewrite Hl in Hj. simpl in Hj. unfold slot_in. rewrite Hin by lia.
    rewrite lookup_app_r by lia.
    replace (length h + (j - 0) - length h)%nat with j by lia.
    rewrite list_lookup_fmap, lookup_seq_lt by lia. reflexivity. }
  assert (Hv : grpcAddrs (h ++ (fresh_slot tgt (lb_maxRequests lb) <$> seq 0 N)) (addrs lb1)
               = Ok (address_set tgt N)).
  { rewrite (grpcAddrs_spec _ _ _ Hslot). rewrite Hl. simpl. rewrite Hlen. reflexivity. }
  exists (set_notify (fst (chan_send (address_set tgt N) (notify lb))) lb1).
  split.
  { unfold Start. fold N. fold lb0. change 0 with (Z.of_nat 0). rewrite Hrun.
    cbn [mbind result_bind].
    change (fun j : nat => new_slot lb0 (Z.of_nat j)) with (fresh_slot tgt (lb_maxRequests lb)).
    unfold sendNotify. rewrite Hv. cbn [mbind result_bind]. rewrite Hc. reflexivity. }
  simpl. repeat split; auto.
Qed.

(** The pool that [Start] leaves. *)
Lemma Start_pool_facts (tgt : string) (h h' : store) (lb lb' : ThroughputLoadBalancer)
    (c : completion) :
  lb_ok lb ->
  Start tgt h lb = Ok (h', lb', c) ->
  h' = h ++ (fresh_slot tgt (lb_maxRequests lb) <$> seq 0 (Z.to_nat (numAddrs lb))) /\
  length (addrs lb') = Z.to_nat (numAddrs lb) /\
  (forall i, (i < Z.to_nat (numAddrs lb))%nat ->
             addrs lb' !! i = Some (Some (length h + i)%nat) /\
             h' !! (length h + i)%nat = Some (fresh_slot tgt (lb_maxRequests lb) i)) /\
  lb_maxRequests lb' = lb_maxRequests lb /\
  lb_ok lb' /\
  pool_ok h' lb'.
Proof.
  intros Hok Hs.
  destruct (Start_spec tgt h lb Hok) as (lb1 & Hrun & Ha & _ & _ & Hm & Hn).
  rewrite Hrun in Hs. inversion Hs. subst h' lb' c. clear Hs.
  set (N := Z.to_nat (numAddrs lb)) in *.
  assert (Hlook : forall i, (i < N)%nat ->
             addrs lb1 !! i = Some (Some (length h + i)%nat) /\
             (h ++ (fresh_slot tgt (lb_maxRequests lb) <$> seq 0 N)) !! (length h + i)%nat
               = Some (fresh_slot tgt (lb_maxRequests lb) i)).
  { intros i Hi. split.
    - rewrite Ha, list_lookup_fmap, lookup_seq_lt by lia. reflexivity.
    - rewrite lookup_app_r by lia.
      replace (length h + i - length h)%nat with i by lia.
      rewrite list_lookup_fmap, lookup_seq_lt by lia. reflexivity. }
  assert (HlenN : length (addrs lb1) = N).
  { rewrite Ha, length_fmap. apply length_seq. }
  split; [reflexivity |]. split; [exact HlenN |]. split; [exact Hlook |].
  split; [exact Hm |]. split.
  { destruct Hok as [Hint _]. unfold lb_ok. rewrite Hn. auto. }
  unfold pool_ok, ptrs_ok. apply Forall_lookup. intros j p Hp.
  assert (Hj : (j < N)%nat) by (apply lookup_lt_Some in Hp; lia).
  destruct (Hlook j Hj) as [Hpj Hsj].
  exists (length h + j)%nat, (fresh_slot tgt (lb_maxRequests lb) j).
  repeat split; auto; congruence.
Qed.

(** X2.  [Start] on a balancer that is in use replaces its slots
    wholesale.  The slots of before stay in the store as they were, the
    slice points to new slots only, all of them down with no request
    counted, and a method called through a pointer of before (a [release]
    or [goDown] handle handed out earlier) leaves every slot of the new
    pool as it is. *)
Theorem Start_replaces_slots (tgt : string) (h : store) (lb : ThroughputLoadBalancer) :
  lb_ok lb ->
  exists h' lb' c,
    Start tgt h lb = Ok (h', lb', c) /\
    (forall k, (k < length h)%nat -> h' !! k = h !! k) /\
    (forall i p, addrs lb' !! i = Some p -> exists k, p = Some k /\ (length h <= k)%nat) /\
    (forall i, (i < Z.to_nat (numAddrs lb))%nat ->
               slot_at h' lb' i = Some (fresh_slot tgt (lb_maxRequests lb) i)) /\
    (forall (g : address -> address) (k : loc) (h'' : store),
        (k < length h)%nat -> update_at g (Some k) h' = Ok h'' ->
        forall i, slot_at h'' lb' i = slot_at h' lb' i).
Proof.
  intros Hok.
  destruct (Start_spec tgt h lb Hok) as (lb1 & Hrun & _).
  eexists _, lb1, _. split; [exact Hrun |].
  destruct (Start_pool_facts _ _ _ _ _ _ Hok Hrun) as (_ & Hlen & Hlook & _ & _ & _).
  set (N := Z.to_nat (numAddrs lb)) in *.
  assert (Hfresh : forall i p, addrs lb1 !! i = Some p ->
                               exists k, p = Some k /\ (length h <= k)%nat).
  { intros i p Hp.
    assert (Hi : (i < N)%nat) by (apply lookup_lt_Some in Hp; lia).
    destruct (Hlook i Hi) as [Hpi _]. exists (length h + i)%nat.
    split; [congruence | lia]. }
  split; [intros k Hk; apply lookup_app_l; exact Hk |].
  split; [exact Hfresh |].
  split.
  { intros i Hi. destruct (Hlook i Hi) as [Hpi Hsi].
    unfold slot_at, slot_in. rewrite Hpi. exact Hsi. }
  intros g k h'' Hk Hupd i. unfold update_at in Hupd. cbn [deref] in Hupd.
  destruct (_ !! k) as [a |] eqn:Hak; [| discriminate Hupd].
  cbn [mbind result_bind] in Hupd. inversion Hupd. subst h''.
  unfold slot_at, slot_in.
  destruct (addrs lb1 !! i) as [[k' |] |] eqn:Hp; try reflexivity.
  destruct (Hfresh i _ Hp) as (k1 & Hk1 & Hle).
  assert (k1 = k') by congruence. subst k1.
  apply list_lookup_insert_ne. lia.
Qed.

Lemma Start_replaces_slots_witness :
  exists h' lb' c,
    Start "other" pair_store pair_lb = Ok (h', lb', c) /\
    (forall k, (k < length pair_store)%nat -> h' !! k = pair_store !! k).
Proof.
  destruct (Start_replaces_slots "other" pair_store pair_lb)
    as (h' & lb' & c & Hs & Hold & _).
  - unfold lb_ok, is_int, min_int, max_int. simpl. split; [lia | reflexivity].
  - exists h', lb', c. split; [exact Hs | exact Hold].
Defined.



(** ** [Up] and [Get] around [Start] *)

(** X4.  Every address of the set that [Start] published is accepted by
    [Up]: [Up] of the address of index [i] puts exactly the slot of index
    [i] to [stateUp] and returns the handle bound to that slot. *)
Theorem Up_accepts_published_address (tgt : string) (h h' : store)
    (lb lb' : ThroughputLoadBalancer) (c : completion) (i : nat) :
  lb_ok lb ->
  Start tgt h lb = Ok (h', lb', c) ->
  (i < Z.to_nat (numAddrs lb))%nat ->
  addrs lb' !! i = Some (Some (length h + i)%nat) /\
  Up (mkAddress tgt (IInt (Z.of_nat i))) h' lb' =
    Ok (<[(length h + i)%nat := set_state stateUp (fresh_slot tgt (lb_maxRequests lb) i)]> h',
        BoundTo (Some (length h + i)%nat)).
Proof.
  intros Hok Hs Hi.
  destruct (Start_pool_facts _ _ _ _ _ _ Hok Hs) as (_ & Hlen & Hlook & _ & _ & Hpool).
  destruct (Hlook i Hi) as [Hpi Hsi]. split; [exact Hpi |].
  unfold Up.
  destruct (Up_loop_spec h' _ (mkAddress tgt (IInt (Z.of_nat i))) (addrs lb') Hpool)
    as [[Hnone _] | (i' & k & a & Hi' & Hk & Ha & _ & Hrun)].
  - exfalso. apply (Hnone i (fresh_slot tgt (lb_maxRequests lb) i)); [| reflexivity].
    unfold slot_in. rewrite Hpi. exact Hsi.
  - assert (Hlt : (i' < Z.to_nat (numAddrs lb))%nat)
      by (apply lookup_lt_Some in Hi'; lia).
    destruct (Hlook i' Hlt) as [Hpi' Hsi'].
    assert (k = (length h + i')%nat) by congruence. subst k.
    assert (a = fresh_slot tgt (lb_maxRequests lb) i') by congruence. subst a.
    simpl in Ha. inversion Ha as [Heq]. apply Nat2Z.inj in Heq. subst i'.
    exact Hrun.
Qed.

Lemma Up_accepts_published_address_witness :
  Up (mkAddress "backend" (IInt 1)) pair_store pair_lb =
    Ok (<[1%nat := set_state stateUp (fresh_slot "backend" 1 1)]> pair_store,
        BoundTo (Some 1%nat)).
Proof.
  apply (Up_accepts_published_address "backend" [] pair_store (solo_lb_fresh 1 2)
           pair_lb Completed 1).
  - unfold lb_ok, is_int, min_int, max_int. simpl. split; [lia | reflexivity].
  - vm_compute. reflexivity.
  - simpl. lia.
Defined.

(** X5.  Before [Start] the slice of a balancer of positive pool size
    holds [nil]s: [Get], with or without waiting, [Up] and [sendNotify]
    panic on the first of them. *)
Theorem calls_before_Start_panic (m n : Z) (opts : list ThroughputLoadBalancerOption)
    (lb : ThroughputLoadBalancer) (fuel : nat) (wait : bool) (addr : grpc_Address)
    (h : store) :
  NewThroughputLoadBalancer m n opts = Ok lb ->
  0 < n ->
  Get (S fuel) wait h lb = Panics /\
  Up addr h lb = Panic /\
  sendNotify h lb = Panic.
Proof.
  intros Hnew Hn.
  destruct (NewThroughputLoadBalancer_fields _ _ _ _ Hnew) as (_ & Ha & _).
  destruct (Z.to_nat n) as [| k] eqn:Hk; [lia |].
  unfold Get, Up, sendNotify. cbn [next]. rewrite Ha. repeat split; reflexivity.
Qed.

Lemma calls_before_Start_panic_witness :
  Get 1 false [] (solo_lb_fresh 2 3) = Panics.
Proof.
  apply (calls_before_Start_panic 2 3 [] (solo_lb_fresh 2 3) 0 false zero_Address []).
  - vm_compute. reflexivity.
  - lia.
Defined.

(** X6.  On a pool of no slots [Get] without waiting fails with
    [errUnavailable], [Get] with waiting stays in its loop however long it
    runs, and [Up] returns the empty handle; none of them writes. *)
Theorem empty_pool_serves_nothing (h : store) (lb : ThroughputLoadBalancer)
    (fuel : nat) (addr : grpc_Address) :
  addrs lb = [] ->
  Get (S fuel) false h lb = Returns (h, zero_Address, NoOp, Some errUnavailable) /\
  Get fuel true h lb = Sleeping /\
  Up addr h lb = Ok (h, NoOp).
Proof.
  intros Ha.
  assert (Hs : scan h (addrs lb) None (wrap (lb_maxRequests lb * 2))
               = Ok (None, wrap (lb_maxRequests lb * 2))) by (rewrite Ha; reflexivity).
  split; [| split].
  - unfold Get. rewrite (next_none_nonblocking _ _ _ _ Hs). reflexivity.
  - unfold Get. rewrite (next_none_blocking _ _ _ _ Hs). reflexivity.
  - unfold Up. rewrite Ha. reflexivity.
Qed.

Lemma empty_pool_serves_nothing_witness :
  Get 1 false [] (solo_lb_fresh 1 0) = Returns ([], zero_Address, NoOp, Some errUnavailable).
Proof.
  apply (empty_pool_serves_nothing [] (solo_lb_fresh 1 0) 0 zero_Address).
  reflexivity.
Defined.

(** ** Handles and round trips *)

(** What [Up] does to the store. *)
Lemma Up_loop_effect (addr : grpc_Address) (l : list ptr) (h h1 : store)
    (f : bound (option error)) :
  Up_loop addr l h = Ok (h1, f) ->
  (h1 = h /\ f = NoOp) \/
  (exists k a, h !! k = Some a /\ Address a = addr /\
               h1 = <[k := goUp a]> h /\ f = BoundTo (Some k)).
Proof.
  induction l as [| p l IH]; intros Hrun.
  - simpl in Hrun. inversion Hrun. left. auto.
  - cbn [Up_loop] in Hrun. destruct p as [k0 |]; [| discriminate Hrun].
    cbn [deref] in Hrun. destruct (h !! k0) as [a0 |] eqn:Hk0; [| discriminate Hrun].
    cbn [mbind result_bind] in Hrun.
    destruct (decide (Address a0 = addr)) as [Heq | Hne]; [| apply IH; exact Hrun].
    unfold goUp_at, update_at in Hrun. cbn [deref] in Hrun. rewrite Hk0 in Hrun.
    cbn [mbind result_bind] in Hrun. inversion Hrun.
    right. exists k0, a0. auto.
Qed.

(** X7.  [Up] twice is [Up] once: on the store that a call of [Up] left,
    the same call finds the same slot, changes nothing and returns the
    same handle. *)
Theorem Up_idempotent (addr : grpc_Address) (h h1 : store) (lb : ThroughputLoadBalancer)
    (f : bound (option error)) :
  Up addr h lb = Ok (h1, f) ->
  Up addr h1 lb = Ok (h1, f).
Proof.
  unfold Up. intros Hrun.
  destruct (Up_loop_effect _ _ _ _ _ Hrun) as [[-> ->] | (k & a & Hk & Ha & Hh1 & Hf)];
    [exact Hrun |].
  revert Hrun. generalize (addrs lb). intros l.
  induction l as [| p l IH]; intros Hrun; [simpl in Hrun; congruence |].
  cbn [Up_loop] in *. destruct p as [k0 |]; [| discriminate Hrun].
  cbn [deref] in *. destruct (h !! k0) as [a0 |] eqn:Hk0; [| discriminate Hrun].
  cbn [mbind result_bind] in Hrun.
  assert (Hlt : (k < length h)%nat) by (apply lookup_lt_Some in Hk; exact Hk).
  destruct (decide (Address a0 = addr)) as [Heq | Hne].
  - unfold goUp_at, update_at in Hrun. cbn [deref] in Hrun. rewrite Hk0 in Hrun.
    cbn [mbind result_bind] in Hrun. inversion Hrun as [[Hstore Hhandle]].
    assert (Hlt0 : (k0 < length h)%nat) by (apply lookup_lt_Some in Hk0; exact Hk0).
    rewrite list_lookup_insert_eq by exact Hlt0. cbn [mbind result_bind].
    destruct (decide (Address (goUp a0) = addr)) as [_ | Hbad]; [| contradiction].
    unfold goUp_at, update_at. cbn [deref].
    rewrite list_lookup_insert_eq by exact Hlt0. cbn [mbind result_bind].
    rewrite list_insert_insert_eq. reflexivity.
  - assert (Hkk : k <> k0) by (intros ->; congruence).
    rewrite Hh1. rewrite list_lookup_insert_ne by exact Hkk. rewrite Hk0.
    cbn [mbind result_bind].
    destruct (decide (Address a0 = addr)) as [Hbad | _]; [contradiction |].
    rewrite <- Hh1. apply IH. exact Hrun.
Qed.

Lemma Up_idempotent_witness :
  Up (mkAddress "backend" (IInt 1))
     (<[1%nat := set_state stateUp (fresh_slot "backend" 1 1)]> pair_store) pair_lb =
    Ok (<[1%nat := set_state stateUp (fresh_slot "backend" 1 1)]> pair_store,
        BoundTo (Some 1%nat)).
Proof.
  apply (Up_idempotent (mkAddress "backend" (IInt 1)) pair_store).
  vm_compute. reflexivity.
Defined.

(** X8.  [Up] and then its handle is a round trip on a slot that was
    down: the store is again the one of before the [Up], whatever cause
    the handle is called with.  So it is when no slot matched. *)
Theorem Up_then_handle_restores (addr : grpc_Address) (cause : option error)
    (h h1 : store) (lb : ThroughputLoadBalancer) (f : bound (option error)) :
  (forall k a, h !! k = Some a -> Address a = addr -> state a = stateDown) ->
  Up addr h lb = Ok (h1, f) ->
  call_down f cause h1 = Ok h.
Proof.
  unfold Up. intros Hdown Hrun.
  destruct (Up_loop_effect _ _ _ _ _ Hrun) as [[-> ->] | (k & a & Hk & Ha & -> & ->)];
    [reflexivity |].
  assert (Hlt : (k < length h)%nat) by (apply lookup_lt_Some in Hk; exact Hk).
  unfold call_down, goDown_at, update_at. cbn [deref].
  rewrite list_lookup_insert_eq by exact Hlt. cbn [mbind result_bind].
  rewrite list_insert_insert_eq. f_equal. apply list_insert_id.
  rewrite Hk. f_equal. pose proof (Hdown k a Hk Ha) as Hst.
  destruct a as [ad st n m]. simpl in Hst. subst st. reflexivity.
Qed.

Lemma Up_then_handle_restores_witness :
  call_down (BoundTo (Some 1%nat)) (Some (errOther "connection reset"))
    (<[1%nat := set_state stateUp (fresh_slot "backend" 1 1)]> pair_store) = Ok pair_store.
Proof.
  apply (Up_then_handle_restores (mkAddress "backend" (IInt 1))
           (Some (errOther "connection reset")) pair_store _ pair_lb).
  - intros [| [| k]] a Hk Ha; inversion Hk; reflexivity.
  - vm_compute. reflexivity.
Defined.

(** What [next] and [Get] do to the store. *)
Lemma next_effect (fuel : nat) (wait : bool) (h h' : store) (lb : ThroughputLoadBalancer)
    (p : ptr) (e : option error) :
  next fuel wait h lb = Returns (h', p, e) ->
  (h' = h /\ p = None /\ e = Some errUnavailable /\ wait = false) \/
  (exists k a, h !! k = Some a /\ h' = <[k := fst (claim a)]> h /\ p = Some k /\ e = None).
Proof.
  induction fuel as [| fuel IH]; intros Hn; [discriminate Hn |].
  destruct (next_outcomes fuel wait h lb)
    as [Hp | [[Hw Hs] | [[Hw Hu] | (k & a & Hk & Hr)]]].
  - congruence.
  - congruence.
  - rewrite Hu in Hn. inversion Hn. left. auto.
  - rewrite Hr in Hn. inversion Hn. right. exists k, a. auto.
Qed.

Lemma Get_effect (fuel : nat) (wait : bool) (h h' : store) (lb : ThroughputLoadBalancer)
    (addr : grpc_Address) (f : bound unit) (e : option error) :
  Get fuel wait h lb = Returns (h', addr, f, e) ->
  (h' = h /\ addr = zero_Address /\ f = NoOp /\ e = Some errUnavailable /\ wait = false) \/
  (exists k a, h !! k = Some a /\ h' = <[k := fst (claim a)]> h /\
               addr = Address a /\ f = BoundTo (Some k) /\ e = None).
Proof.
  unfold Get. intros Hg.
  destruct (next fuel wait h lb) as [[[h1 p] e1] | |] eqn:Hn; try discriminate Hg.
  destruct (next_effect _ _ _ _ _ _ _ Hn)
    as [(-> & -> & -> & ->) | (k & a & Hk & -> & -> & ->)].
  - inversion Hg. left. auto.
  - assert (Hlt : (k < length h)%nat) by (apply lookup_lt_Some in Hk; exact Hk).
    cbn [deref] in Hg. rewrite list_lookup_insert_eq in Hg by exact Hlt.
    inversion Hg. right. exists k, a. repeat split; auto.
    unfold claim. destruct (decide (activeRequests a >= maxRequests a)); reflexivity.
Qed.

Lemma release_after_claim (a : address) :
  slot_ok a -> activeRequests a < maxRequests a -> release (fst (claim a)) = a.
Proof.
  intros Hok Hlt. rewrite (claim_below a Hok Hlt). cbn [fst].
  unfold release, set_activeRequests. simpl.
  replace (activeRequests a + 1 - 1) with (activeRequests a) by lia.
  rewrite wrap_int by apply Hok. destruct a; reflexivity.
Qed.

(** On a pool with a slot that is up and below the ceiling, [next] takes
    such a slot. *)
Lemma next_picks_available (fuel : nat) (wait : bool) (h : store)
    (lb : ThroughputLoadBalancer) :
  pool_ok h lb ->
  0 <= lb_maxRequests lb < 2 ^ 62 ->
  (exists j b, slot_at h lb j = Some b /\ available b) ->
  exists i k a,
    addrs lb !! i = Some (Some k) /\ h !! k = Some a /\ available a /\
    next (S fuel) wait h lb = Returns (<[k := fst (claim a)]> h, Some k, None).
Proof.
  intros Hok Hm (j0 & b0 & Hj0 & Hup0 & Hlt0).
  pose proof (pool_ok_slot_at _ _ _ _ Hok Hj0) as Hm0.
  assert (Hw : wrap (lb_maxRequests lb * 2) = lb_maxRequests lb * 2)
    by (apply wrap_double; lia).
  destruct (scan_spec h _ (addrs lb) None (wrap (lb_maxRequests lb * 2)) Hok)
    as [[_ Hall] | (i & k & a & Hi & Hk & Hup & Hlt & Hs & Hmin & _)].
  - specialize (Hall j0 b0 Hj0 Hup0). lia.
  - assert (Hsa : slot_at h lb i = Some a).
    { unfold slot_at, slot_in. rewrite Hi. exact Hk. }
    pose proof (pool_ok_slot_at _ _ _ _ Hok Hsa) as Hma.
    pose proof (Hmin j0 b0 Hj0 Hup0) as Hle.
    exists i, k, a. repeat split; auto; [lia |].
    apply (next_found _ _ _ _ _ _ _ Hs Hk).
Qed.

(** X9.  [Get] and then the release func it returned is a round trip: on a
    pool with a slot that is up and below the ceiling (the ceiling within
    [0 <= maxRequests < 2^62]) [Get] succeeds, with or without waiting, and
    the call of its release func gives back the store of before. *)
Theorem Get_then_release_restores (fuel : nat) (wait : bool) (h : store)
    (lb : ThroughputLoadBalancer) :
  pool_ok h lb ->
  0 <= lb_maxRequests lb < 2 ^ 62 ->
  (forall j b, slot_at h lb j = Some b -> is_int (activeRequests b)) ->
  (exists j b, slot_at h lb j = Some b /\ available b) ->
  exists h1 addr f,
    Get (S fuel) wait h lb = Returns (h1, addr, f, None) /\
    call_release f h1 = Ok h.
Proof.
  intros Hok Hm Hints Hav.
  destruct (next_picks_available fuel wait h lb Hok Hm Hav)
    as (i & k & a & Hi & Hk & [Hup Hlt] & Hn).
  destruct (Get_of_next (S fuel) wait h lb) as (_ & _ & _ & Hr).
  eexists _, _, _. split; [apply (Hr _ _ Hk Hn) |].
  assert (Hsa : slot_at h lb i = Some a).
  { unfold slot_at, slot_in. rewrite Hi. exact Hk. }
  assert (Hsok : slot_ok a).
  { split; [apply (Hints _ _ Hsa) |].
    rewrite (pool_ok_slot_at _ _ _ _ Hok Hsa). unfold is_int, min_int, max_int. lia. }
  assert (Hklt : (k < length h)%nat) by (apply lookup_lt_Some in Hk; exact Hk).
  unfold call_release, release_at, update_at. cbn [deref].
  rewrite list_lookup_insert_eq by exact Hklt. cbn [mbind result_bind].
  rewrite list_insert_insert_eq, (release_after_claim a Hsok Hlt).
  f_equal. apply list_insert_id. exact Hk.
Qed.

Lemma Get_then_release_restores_witness :
  exists h1 addr f,
    Get 1 false trio_store trio_lb = Returns (h1, addr, f, None) /\
    call_release f h1 = Ok trio_store.
Proof.
  apply (Get_then_release_restores 0 false trio_store trio_lb).
  - unfold pool_ok, ptrs_ok. simpl.
    repeat constructor; eexists _, _; repeat split; reflexivity.
  - simpl. lia.
  - intros [| [| [| j]]] b Hj; inversion Hj; unfold is_int, min_int, max_int; simpl; lia.
  - exists 1%nat, (mkSlot (mkAddress "backend" (IInt 1)) stateUp 1 2).
    split; [reflexivity |]. unfold available. simpl. split; [reflexivity | lia].
Defined.

(** X10.  What a call of [Get] that returns can have done to a slot:
    nothing, or, on the one slot it hands out and only if that slot was
    below its ceiling, one more request counted, which leaves the count
    within the ceiling.  The address, the state and the ceiling of every
    slot are as before. *)
Theorem Get_changes_one_count_at_most (fuel : nat) (wait : bool) (h h' : store)
    (lb : ThroughputLoadBalancer) (addr : grpc_Address) (f : bound unit)
    (e : option error) (k : loc) (a : address) :
  Get fuel wait h lb = Returns (h', addr, f, e) ->
  h !! k = Some a ->
  slot_ok a ->
  h' !! k = Some a \/
  (f = BoundTo (Some k) /\ e = None /\ addr = Address a /\
   activeRequests a < maxRequests a /\
   h' !! k = Some (set_activeRequests (activeRequests a + 1) a)).
Proof.
  intros Hg Hk Hok.
  destruct (Get_effect _ _ _ _ _ _ _ _ Hg)
    as [(-> & _) | (k1 & a1 & Hk1 & -> & -> & -> & ->)]; [left; exact Hk |].
  destruct (decide (k1 = k)) as [-> | Hne].
  - assert (a1 = a) by congruence. subst a1.
    assert (Hlt : (k < length h)%nat) by (apply lookup_lt_Some in Hk; exact Hk).
    rewrite list_lookup_insert_eq by exact Hlt.
    destruct (Z_lt_ge_dec (activeRequests a) (maxRequests a)) as [Hbelow | Hge].
    + right. rewrite (claim_below a Hok Hbelow). auto.
    + left. rewrite (claim_at_ceiling a Hge). reflexivity.
  - left. rewrite list_lookup_insert_ne by exact Hne. exact Hk.
Qed.

Lemma Get_changes_one_count_at_most_witness :
  solo_store 1 1 !! 0%nat = Some full_slot \/
  (BoundTo (Some 0%nat) = BoundTo (A := unit) (Some 0%nat) /\ @None error = None /\
   mkAddress "backend" (IInt 0) = Address full_slot /\
   activeRequests full_slot < maxRequests full_slot /\
   solo_store 1 1 !! 0%nat = Some (set_activeRequests (activeRequests full_slot + 1) full_slot)).
Proof.
  apply (Get_changes_one_count_at_most 1 false (solo_store 1 1) (solo_store 1 1) (solo_lb 1)
           (mkAddress "backend" (IInt 0)) (BoundTo (Some 0%nat)) None 0%nat full_slot).
  - vm_compute. reflexivity.
  - reflexivity.
  - unfold slot_ok, is_int, min_int, max_int. simpl. lia.
Defined.

(** ** What no call changes *)

Lemma same_slots_refl (h : store) : same_slots h h.
Proof. split; [reflexivity |]. intros k a Hk. exists a. auto. Qed.

Lemma same_slots_trans (h1 h2 h3 : store) :
  same_slots h1 h2 -> same_slots h2 h3 -> same_slots h1 h3.
Proof.
  intros [Hl12 H12] [Hl23 H23]. split; [congruence |].
  intros k a Hk. destruct (H12 k a Hk) as (a2 & Hk2 & Ha2 & Hm2).
  destruct (H23 k a2 Hk2) as (a3 & Hk3 & Ha3 & Hm3).
  exists a3. repeat split; auto; congruence.
Qed.

Lemma same_slots_insert (h : store) (k : loc) (a a' : address) :
  h !! k = Some a -> Address a' = Address a -> maxRequests a' = maxRequests a ->
  same_slots h (<[k := a']> h).
Proof.
  intros Hk Ha Hm. split; [apply length_insert |].
  intros j b Hj. destruct (decide (k = j)) as [-> | Hne].
  - exists a'. rewrite list_lookup_insert_eq by (apply lookup_lt_Some in Hj; exact Hj).
    assert (b = a) by congruence. subst b. auto.
  - exists b. rewrite list_lookup_insert_ne by exact Hne. auto.
Qed.

Lemma update_at_same_slots (g : address -> address) (p : ptr) (h h' : store) :
  (forall a, Address (g a) = Address a /\ maxRequests (g a) = maxRequests a) ->
  update_at g p h = Ok h' -> same_slots h h'.
Proof.
  intros Hg Hu. unfold update_at in Hu. destruct p as [k |]; [| discriminate Hu].
  cbn [deref] in Hu. destruct (h !! k) as [a |] eqn:Hk; [| discriminate Hu].
  cbn [mbind result_bind] in Hu. inversion Hu.
  apply (same_slots_insert h k a (g a) Hk); apply Hg.
Qed.

Lemma claim_keeps_identity (a : address) :
  Address (fst (claim a)) = Address a /\ maxRequests (fst (claim a)) = maxRequests a.
Proof.
  unfold claim. destruct (decide (activeRequests a >= maxRequests a)); auto.
Qed.

Lemma ptrs_ok_same_slots (h h' : store) (m : Z) (l : list ptr) :
  same_slots h h' -> ptrs_ok h m l -> ptrs_ok h' m l.
Proof.
  intros [_ Hsame] Hok. unfold ptrs_ok in *.
  apply (Forall_impl _ _ _ Hok). intros p (k & a & -> & Hk & Hm).
  destruct (Hsame k a Hk) as (a' & Hk' & _ & Hm').
  exists k, a'. repeat split; auto. congruence.
Qed.

(** X11.  However a client and a health reporter mix their calls of
    [Get], of release funcs, of [Up] and of its handles, a run that comes
    to its end leaves the store with the same slots: as many as before,
    each with the address and the ceiling it had.  A pool stays a pool. *)
Theorem calls_keep_slots (fuel : nat) (cs : list call) (lb : ThroughputLoadBalancer) :
  forall (h h' : store),
    run_calls fuel cs h lb = Returns h' ->
    same_slots h h' /\ (pool_ok h lb -> pool_ok h' lb).
Proof.
  assert (Hpool : forall h h', same_slots h h' -> pool_ok h lb -> pool_ok h' lb).
  { intros h h' Hs. apply ptrs_ok_same_slots. exact Hs. }
  assert (Hstep : forall h h1 h' : store,
             same_slots h h1 ->
             (same_slots h1 h' /\ (pool_ok h1 lb -> pool_ok h' lb)) ->
             same_slots h h' /\ (pool_ok h lb -> pool_ok h' lb)).
  { intros h h1 h' H1 [H2 _].
    pose proof (same_slots_trans _ _ _ H1 H2) as H3. split; [exact H3 | apply Hpool; exact H3]. }
  induction cs as [| c cs IH]; intros h h' Hrun.
  - simpl in Hrun. inversion Hrun. subst h'.
    split; [apply same_slots_refl | auto].
  - destruct c as [w | f | addr | f cause]; cbn [run_calls] in Hrun.
    + destruct (Get fuel w h lb) as [[[[h1 a1] f1] e1] | |] eqn:Hg; try discriminate Hrun.
      apply (Hstep h h1 h'); [| apply IH; exact Hrun].
      destruct (Get_effect _ _ _ _ _ _ _ _ Hg) as [(-> & _) | (k & a & Hk & -> & _)].
      * apply same_slots_refl.
      * apply (same_slots_insert h k a _ Hk); apply claim_keeps_identity.
    + destruct (call_release f h) as [h1 |] eqn:Hc; [| discriminate Hrun].
      apply (Hstep h h1 h'); [| apply IH; exact Hrun].
      destruct f as [p |]; cbn [call_release] in Hc.
      * apply (update_at_same_slots release p h h1); [| exact Hc]. intros a. auto.
      * inversion Hc. apply same_slots_refl.
    + destruct (Up addr h lb) as [[h1 f1] |] eqn:Hu; [| discriminate Hrun].
      apply (Hstep h h1 h'); [| apply IH; exact Hrun].
      destruct (Up_loop_effect _ _ _ _ _ Hu) as [[-> _] | (k & a & Hk & _ & -> & _)].
      * apply same_slots_refl.
      * apply (same_slots_insert h k a _ Hk); reflexivity.
    + destruct (call_down f cause h) as [h1 |] eqn:Hc; [| discriminate Hrun].
      apply (Hstep h h1 h'); [| apply IH; exact Hrun].
      destruct f as [p |]; cbn [call_down] in Hc.
      * apply (update_at_same_slots (goDown cause) p h h1); [| exact Hc]. intros a. auto.
      * inversion Hc. apply same_slots_refl.
Qed.

Lemma calls_keep_slots_witness :
  same_slots trio_store
    (<[0%nat := mkSlot (mkAddress "backend" (IInt 0)) stateDown 1 2]>
       (<[2%nat := mkSlot (mkAddress "backend" (IInt 2)) stateUp 1 2]> trio_store)).
Proof.
  apply (calls_keep_slots 1
           [CallGet false; CallRelease (BoundTo (Some 0%nat));
            CallDown (BoundTo (Some 0%nat)) None; CallUp (mkAddress "backend" (IInt 2))]
           trio_lb trio_store).
  vm_compute. reflexivity.
Defined.

(** ** When [Get] serves, fails or waits *)

(** X12.  On a pool, [Get] without waiting fails with [errUnavailable]
    exactly when every slot that is up has a load of at least the bound
    [maxRequests * 2] (as an [int]) that the scan starts from; slots that
    are down do not matter, and neither does any ceiling. *)
Theorem Get_unavailable_iff (fuel : nat) (h : store) (lb : ThroughputLoadBalancer) :
  pool_ok h lb ->
  Get (S fuel) false h lb = Returns (h, zero_Address, NoOp, Some errUnavailable) <->
  (forall j b, slot_at h lb j = Some b -> state b = stateUp ->
               wrap (lb_maxRequests lb * 2) <= activeRequests b).
Proof.
  intros Hok.
  destruct (Get_of_next (S fuel) false h lb) as (_ & _ & He & Hr).
  destruct (next_nonblocking_spec fuel h lb Hok)
    as [[Hn Hall] | (i & k & a & Hi & Hk & Hup & Hlt & Hn)].
  - split; [intros _; exact Hall | intros _; apply (He _ _ _ Hn)].
  - split.
    + intros Hg. rewrite (Hr _ _ Hk Hn) in Hg. discriminate Hg.
    + intros Hall. assert (Hs : slot_at h lb i = Some a).
      { unfold slot_at, slot_in. rewrite Hi. exact Hk. }
      specialize (Hall i a Hs Hup). lia.
Qed.

Lemma Get_unavailable_iff_witness :
  Get 1 false pair_store pair_lb = Returns (pair_store, zero_Address, NoOp, Some errUnavailable).
Proof.
  apply (Get_unavailable_iff 0 pair_store pair_lb pair_pool_ok).
  intros [| [| j]] b Hj Hup; inversion Hj; subst b; discriminate Hup.
Defined.

(** X13.  Where [Get] without waiting fails with [errUnavailable], [Get]
    with waiting neither fails nor returns: as long as no other goroutine
    changes a slot it is in its retry loop, after any number of rounds. *)
Theorem Get_waits_where_unavailable (h : store) (lb : ThroughputLoadBalancer) (fuel : nat) :
  Get 1 false h lb = Returns (h, zero_Address, NoOp, Some errUnavailable) ->
  Get fuel true h lb = Sleeping.
Proof.
  unfold Get. intros Hg.
  destruct (scan h (addrs lb) None (wrap (lb_maxRequests lb * 2)))
    as [[[k |] c] |] eqn:Hs.
  - exfalso. cbn [next] in Hg. rewrite Hs in Hg.
    destruct (claim_at (Some k) h) as [[h1 e1] |]; [| discriminate Hg].
    destruct (deref h1 (Some k)); discriminate Hg.
  - rewrite (next_none_blocking fuel h lb c Hs). reflexivity.
  - exfalso. cbn [next] in Hg. rewrite Hs in Hg. discriminate Hg.
Qed.

Lemma Get_waits_where_unavailable_witness :
  Get 5 true pair_store pair_lb = Sleeping.
Proof.
  apply (Get_waits_where_unavailable pair_store pair_lb 5).
  vm_compute. reflexivity.
Defined.

(** X14.  Where [Get] without waiting hands out a slot, [Get] with
    waiting hands out the same slot in its first round, without sleeping:
    the flag matters only when no slot is found. *)
Theorem Get_waiting_serves_at_once (fuel : nat) (wait : bool) (h h' : store)
    (lb : ThroughputLoadBalancer) (addr : grpc_Address) (f : bound unit) :
  Get 1 false h lb = Returns (h', addr, f, None) ->
  Get (S fuel) wait h lb = Returns (h', addr, f, None).
Proof.
  unfold Get. intros Hg.
  destruct (scan h (addrs lb) None (wrap (lb_maxRequests lb * 2)))
    as [[[k |] c] |] eqn:Hs.
  - destruct (h !! k) as [a |] eqn:Hk.
    + rewrite (next_found 0 false h lb k c a Hs Hk) in Hg.
      rewrite (next_found fuel wait h lb k c a Hs Hk). exact Hg.
    + exfalso. cbn [next] in Hg. rewrite Hs in Hg.
      unfold claim_at in Hg. cbn [deref] in Hg. rewrite Hk in Hg. discriminate Hg.
  - exfalso. rewrite (next_none_nonblocking 0 h lb c Hs) in Hg. discriminate Hg.
  - exfalso. cbn [next] in Hg. rewrite Hs in Hg. discriminate Hg.
Qed.

Lemma Get_waiting_serves_at_once_witness :
  Get 3 true trio_store trio_lb =
    Returns (<[2%nat := mkSlot (mkAddress "backend" (IInt 2)) stateUp 1 2]> trio_store,
             mkAddress "backend" (IInt 2), BoundTo (Some 2%nat), None).
Proof.
  apply (Get_waiting_serves_at_once 2 true trio_store).
  vm_compute. reflexivity.
Defined.

(** X15.  [Up] and [Get] compose: on a pool whose slots are all down and
    below the ceiling (the ceiling within [0 <= maxRequests < 2^62]), once
    an address of the pool is reported up, [Get] hands out that very
    address, and its release func and the handle of [Up] are bound to the
    same slot. *)
Theorem Get_after_Up_serves_that_address (fuel : nat) (wait : bool) (addr : grpc_Address)
    (h : store) (lb : ThroughputLoadBalancer) :
  pool_ok h lb ->
  0 <= lb_maxRequests lb < 2 ^ 62 ->
  (forall j b, slot_at h lb j = Some b ->
               state b = stateDown /\ activeRequests b < maxRequests b) ->
  (exists j b, slot_at h lb j = Some b /\ Address b = addr) ->
  exists h1 h2 k,
    Up addr h lb = Ok (h1, BoundTo (Some k)) /\
    Get (S fuel) wait h1 lb = Returns (h2, addr, BoundTo (Some k), None).
Proof.
  intros Hok Hm Hall (j0 & b0 & Hj0 & Hb0).
  destruct (Up_loop_spec h _ addr (addrs lb) Hok)
    as [[Hnone _] | (i & k & a & Hi & Hk & Ha & _ & Hrun)].
  { exfalso. apply (Hnone j0 b0 Hj0 Hb0). }
  assert (Hsa : slot_at h lb i = Some a).
  { unfold slot_at, slot_in. rewrite Hi. exact Hk. }
  destruct (Hall i a Hsa) as [_ Hlt].
  assert (Hklt : (k < length h)%nat) by (apply lookup_lt_Some in Hk; exact Hk).
  set (h1 := <[k := goUp a]> h) in *.
  assert (Hk1 : h1 !! k = Some (goUp a)) by (apply list_lookup_insert_eq; exact Hklt).
  assert (Hok1 : pool_ok h1 lb).
  { apply (ptrs_ok_same_slots h h1); [| exact Hok].
    apply (same_slots_insert h k a _ Hk); reflexivity. }
  destruct (next_picks_available fuel wait h1 lb Hok1 Hm)
    as (i2 & k2 & a2 & Hi2 & Hk2 & [Hup2 _] & Hn).
  { exists i, (goUp a). split.
    - unfold slot_at, slot_in. rewrite Hi. exact Hk1.
    - split; [reflexivity | exact Hlt]. }
  assert (k2 = k).
  { destruct (decide (k2 = k)) as [Heq | Hne]; [exact Heq | exfalso].
    unfold h1 in Hk2. rewrite list_lookup_insert_ne in Hk2 by (intros Heq; auto).
    assert (Hs2 : slot_at h lb i2 = Some a2).
    { unfold slot_at, slot_in. rewrite Hi2. exact Hk2. }
    destruct (Hall i2 a2 Hs2) as [Hdown _]. congruence. }
  subst k2. assert (a2 = goUp a) by congruence. subst a2.
  destruct (Get_of_next (S fuel) wait h1 lb) as (_ & _ & _ & Hr).
  exists h1, (<[k := fst (claim (goUp a))]> h1), k.
  split; [exact Hrun |].
  rewrite (Hr _ _ Hk2 Hn). simpl. rewrite Ha. reflexivity.
Qed.

Lemma Get_after_Up_serves_that_address_witness :
  exists h1 h2 k,
    Up (mkAddress "backend" (IInt 1)) pair_store pair_lb = Ok (h1, BoundTo (Some k)) /\
    Get 1 false h1 pair_lb = Returns (h2, mkAddress "backend" (IInt 1), BoundTo (Some k), None).
Proof.
  apply (Get_after_Up_serves_that_address 0 false (mkAddress "backend" (IInt 1))
           pair_store pair_lb pair_pool_ok).
  - simpl. lia.
  - intros [| [| j]] b Hj; inversion Hj; simpl; split; (reflexivity || lia).
  - exists 1%nat, (fresh_slot "backend" 1 1). split; reflexivity.
Defined.

(** X16.  Which slot [next] takes, ceilings apart: when some slot that is
    up has a load below the bound [maxRequests * 2] (as an [int]), [next]
    returns, with or without waiting, the first slot of least load among
    the slots that are up, and calls [claim] on it. *)
Theorem next_takes_least_loaded_up (fuel : nat) (wait : bool) (h : store)
    (lb : ThroughputLoadBalancer) :
  pool_ok h lb ->
  (exists j b, slot_at h lb j = Some b /\ state b = stateUp /\
               activeRequests b < wrap (lb_maxRequests lb * 2)) ->
  exists i k a,
    addrs lb !! i = Some (Some k) /\ h !! k = Some a /\ state a = stateUp /\
    next (S fuel) wait h lb = Returns (<[k := fst (claim a)]> h, Some k, None) /\
    (forall j b, slot_at h lb j = Some b -> state b = stateUp ->
                 activeRequests a <= activeRequests b) /\
    (forall j b, (j < i)%nat -> slot_at h lb j = Some b -> state b = stateUp ->
                 activeRequests a < activeRequests b).
Proof.
  intros Hok (j0 & b0 & Hj0 & Hup0 & Hlt0).
  destruct (scan_spec h _ (addrs lb) None (wrap (lb_maxRequests lb * 2)) Hok)
    as [[_ Hall] | (i & k & a & Hi & Hk & Hup & Hlt & Hs & Hmin & Hfirst)].
  - specialize (Hall j0 b0 Hj0 Hup0). lia.
  - exists i, k, a. repeat split; auto.
    apply (next_found _ _ _ _ _ _ _ Hs Hk).
Qed.

Lemma next_takes_least_loaded_up_witness :
  exists i k a,
    addrs trio_lb !! i = Some (Some k) /\ trio_store !! k = Some a /\ state a = stateUp /\
    next 1 false trio_store trio_lb = Returns (<[k := fst (claim a)]> trio_store, Some k, None) /\
    (forall j b, slot_at trio_store trio_lb j = Some b -> state b = stateUp ->
                 activeRequests a <= activeRequests b) /\
    (forall j b, (j < i)%nat -> slot_at trio_store trio_lb j = Some b -> state b = stateUp ->
                 activeRequests a < activeRequests b).
Proof.
  apply (next_takes_least_loaded_up 0 false trio_store trio_lb).
  - unfold pool_ok, ptrs_ok. simpl.
    repeat constructor; eexists _, _; repeat split; reflexivity.
  - exists 0%nat, (mkSlot (mkAddress "backend" (IInt 0)) stateUp 2 2).
    split; [reflexivity |]. split; [reflexivity |]. vm_compute. reflexivity.
Defined.

(** ** More on one slot *)

Lemma run_claims (n : nat) :
  forall (a : address) (held : nat),
    is_int (maxRequests a) ->
    0 <= activeRequests a <= maxRequests a ->
    activeRequests (fst (run_ops (replicate n OpClaim) a held)) =
      Z.min (activeRequests a + Z.of_nat n) (maxRequests a) /\
    maxRequests (fst (run_ops (replicate n OpClaim) a held)) = maxRequests a.
Proof.
  induction n as [| n IH]; intros a held Hm Hr.
  - simpl. split; [lia | reflexivity].
  - assert (Hok : slot_ok a).
    { split; [| exact Hm]. unfold is_int, min_int, max_int in *. lia. }
    cbn [replicate run_ops].
    destruct (Z_lt_ge_dec (activeRequests a) (maxRequests a)) as [Hlt | Hge].
    + rewrite (claim_below a Hok Hlt).
      destruct (IH (set_activeRequests (activeRequests a + 1) a) (S held)) as [Hc Hk].
      * exact Hm.
      * simpl. lia.
      * rewrite Hc, Hk. simpl. split; [lia | reflexivity].
    + rewrite (claim_at_ceiling a Hge).
      destruct (IH a held Hm Hr) as [Hc Hk]. rewrite Hc, Hk. split; [lia | reflexivity].
Qed.

(** X17.  An idle slot takes as many claims as its ceiling and no more:
    after [n] calls of [claim] in a row its count is the smaller of [n]
    and [maxRequests]. *)
Theorem claims_saturate_at_ceiling (n : nat) (a : address) :
  is_int (maxRequests a) ->
  activeRequests a = 0 ->
  0 <= maxRequests a ->
  activeRequests (fst (run_ops (replicate n OpClaim) a 0)) =
    Z.min (Z.of_nat n) (maxRequests a).
Proof.
  intros Hm H0 Hpos.
  destruct (run_claims n a 0 Hm) as [Hc _]; [lia |].
  rewrite Hc, H0. reflexivity.
Qed.

Lemma claims_saturate_at_ceiling_witness :
  activeRequests (fst (run_ops (replicate 5 OpClaim) (fresh_slot "backend" 2 0) 0)) = 2.
Proof.
  apply (claims_saturate_at_ceiling 5 (fresh_slot "backend" 2 0)).
  - unfold is_int, min_int, max_int. simpl. lia.
  - reflexivity.
  - simpl. lia.
Defined.


